(** * ml_from_scratch: the Theano notebooks, embedded and verified

    The two notebooks under [src/] are scripts over NumPy and Theano:
    - [03_trivial_problem_theano]: gradient descent on a two-weight linear
      model, written as a Theano graph;
    - [04_music_genre_prediction_theano]: a three-layer perceptron, its data
      server, its training function and its training loop.

    Modelling decisions.
    - Numbers.  A Theano graph denotes a function of real numbers; the
      definitions below are written once over a [Scalar] interface and run
      at [Q] (exact, executable: every finite float is a rational) and at
      [R] (where [exp] and derivatives live).  Rounding error, infinities
      and NaN are outside the model, except that a division by zero is
      reported ([None]) instead of being given a value.
    - Tensors.  A vector is a list, a matrix a list of rows.  Theano
      raises an error when the shapes of the operands of an elementwise
      operation or of a product do not fit; the list functions below
      truncate instead, and the theorems that depend on it assume the
      shapes fit.
    - Theano.  A symbolic variable is its static element type together
      with its denotation, a function of the shared store and of the
      inputs; a compiled function reads the store, returns its outputs
      and writes the updates.
    - Randomness.  [random.randrange] is a finite distribution; the code
      that draws from it runs in the distribution monad. *)

From Stdlib Require Import ZArith QArith Qabs Qround Qcanon Reals Lra Lia.
From stdpp Require Import base list gmap strings.

(** ** Scalars *)

Module Numeric.

Class Scalar (T : Type) := {
  of_Q : Q → T;            (* numeric literals *)
  add : T → T → T;
  sub : T → T → T;
  mul : T → T → T;
  div : T → T → T;
  ltb : T → T → bool;
  eqb : T → T → bool;
  floor : T → Z
}.

Class Exponential (T : Type) := exp_ : T → T.

(** Exact rationals, kept in lowest terms. *)
#[export] Instance Scalar_Q : Scalar Q := {|
  of_Q q := Qred q;
  add a b := Qred (a + b);
  sub a b := Qred (a - b);
  mul a b := Qred (a * b);
  div a b := Qred (a / b);
  ltb a b := negb (Qle_bool b a);
  eqb := Qeq_bool;
  floor := Qfloor
|}.

#[export] Instance Scalar_R : Scalar R := {|
  of_Q := Q2R;
  add := Rplus; sub := Rminus; mul := Rmult; div := Rdiv;
  ltb a b := if Rlt_dec a b then true else false;
  eqb a b := if Req_dec_T a b then true else false;
  floor := Int_part
|}.

#[export] Instance Exponential_R : Exponential R := exp.

Declare Scope scalar_scope.
Delimit Scope scalar_scope with S.
Infix "+" := add : scalar_scope.
Infix "-" := sub : scalar_scope.
Infix "*" := mul : scalar_scope.
Infix "/" := div : scalar_scope.

Section ops.
Context {T : Type} `{Scalar T}.
Local Open Scope scalar_scope.

Definition of_nat (n : nat) : T := of_Q (inject_Z (Z.of_nat n)).
Definition of_Z (z : Z) : T := of_Q (inject_Z z).
Definition sqr (a : T) : T := a * a.
Definition neg (a : T) : T := of_Q 0 - a.

(** [a / b] as NumPy computes it on floats, with a result that is not a
    number ([nan], [inf]) reported as [None]. *)
Definition float_div (a b : T) : option T :=
  if eqb b (of_Q 0) then None else Some (a / b).

(** Sum of the elements of a vector, [v.sum()]. *)
Definition vsum (v : list T) : T := foldr add (of_Q 0) v.

(** Elementwise operations on vectors and matrices of equal shape. *)
Definition vmap2 (f : T → T → T) (a b : list T) : list T := zip_with f a b.
Definition mmap2 (f : T → T → T) (a b : list (list T)) : list (list T) :=
  zip_with (zip_with f) a b.
Definition mmap (f : T → T) (a : list (list T)) : list (list T) :=
  map (map f) a.
End ops.

End Numeric.
Export Numeric.

(** ** NumPy arrays: element types *)

Module NumPy.

Inductive dtype := int8 | float32 | float64.

#[export] Instance dtype_eq_dec : EqDecision dtype.
Proof. solve_decision. Defined.

(** The element type of the result of an elementwise operation. *)
Definition upcast (a b : dtype) : dtype :=
  match a, b with
  | float64, _ | _, float64 => float64
  | float32, _ | _, float32 => float32
  | int8, int8 => int8
  end.

(** An array: its element type and its contents. *)
Record ndarray (D : Type) := Ndarray { nd_dtype : dtype; nd_data : D }.
Arguments Ndarray {D} _ _.
Arguments nd_dtype {D} _.
Arguments nd_data {D} _.

(** [numpy.asarray] of a list of Python floats is a [float64] array. *)
Definition asarray {D} (values : D) : ndarray D := Ndarray float64 values.

(** [a.astype(t)] *)
Definition astype {D} (t : dtype) (a : ndarray D) : ndarray D :=
  Ndarray t (nd_data a).

End NumPy.
Export NumPy.

(** ** Theano: symbolic variables, shared variables, compiled functions *)

Module Theano.

(** [float32_exact q]: the literal [q] is a binary fraction whose
    numerator has at most 24 significant bits (the exponent range is not
    looked at). *)
Definition float32_exact (q : Q) : bool :=
  let r := Qred q in
  let n := Z.abs (Qnum r) in
  let d := Z.pos (Qden r) in
  ((d =? 2 ^ Z.log2 d) && (n mod 2 ^ Z.max 0 (Z.log2 n - 23) =? 0))%Z.

(** The element type Theano gives a Python float literal: [config.floatX]
    when that is [float32], otherwise the first of [float32] and
    [float64] that holds the literal exactly.  [floatX] is [float32] or
    [float64]. *)
Definition autocast_float (floatX : dtype) (q : Q) : dtype :=
  match floatX with
  | float32 => float32
  | _ => if float32_exact q then float32 else float64
  end.

Section graph.
(** [D] is the type of the values of shared variables, [I] the type of
    the inputs of the compiled functions. *)
Context {D I : Type} `{Inhabited D}.

Record variable (A : Type) := Variable_ {
  dtype_of : dtype;
  eval : gmap string D → I → A
}.
Arguments Variable_ {A} _ _.
Arguments dtype_of {A} _.
Arguments eval {A} _ _ _.

Record shared_variable := Shared { sv_name : string; sv_dtype : dtype }.

(** [theano.shared(value, name)]: the variable and its initial value. *)
Definition shared (value : ndarray D) (name : string)
    : shared_variable * (string * D) :=
  (Shared name (nd_dtype value), (name, nd_data value)).

(** A shared variable used inside an expression reads the store. *)
Definition read (s : shared_variable) : variable D :=
  Variable_ (sv_dtype s) (λ st _, st !!! sv_name s).

(** An input variable of element type [t]. *)
Definition input {A} (t : dtype) (get : I → A) : variable A :=
  Variable_ t (λ _ i, get i).

(** A Python float literal used in an expression. *)
Definition constant `{Scalar T} (floatX : dtype) (q : Q) : variable T :=
  Variable_ (autocast_float floatX q) (λ _ _, of_Q q).

(** Operations keep the element type (one operand) or upcast (two). *)
Definition lift1 {A B} (f : A → B) (a : variable A) : variable B :=
  Variable_ (dtype_of a) (λ st i, f (eval a st i)).
Definition lift2 {A B C} (f : A → B → C) (a : variable A) (b : variable B)
    : variable C :=
  Variable_ (upcast (dtype_of a) (dtype_of b))
            (λ st i, f (eval a st i) (eval b st i)).

#[export] Instance variable_inhabited {A} `{Inhabited A} : Inhabited (variable A) :=
  populate (Variable_ float64 (λ _ _, inhabitant)).

Definition updates_list := list (shared_variable * variable D).

(** What a call of a compiled function does: outputs and update
    expressions are all evaluated in the store as it is before the call,
    then the new values are written. *)
Definition write_updates (st : gmap string D) (i : I) (updates : updates_list)
    : gmap string D :=
  foldl (λ st' u, <[sv_name u.1 := eval u.2 st i]> st') st updates.

Definition call {O} (outputs : gmap string D → I → O) (updates : updates_list)
    (st : gmap string D) (i : I) : O * gmap string D :=
  (outputs st i, write_updates st i updates).

(** [theano.function] refuses (TypeError) an update whose element type is
    not that of its shared variable, and a shared variable updated
    twice. *)
Definition updates_accepted (updates : updates_list) : bool :=
  forallb (λ u, bool_decide (sv_dtype u.1 = dtype_of u.2)) updates
  && bool_decide (NoDup (map (λ u, sv_name u.1) updates)).

Definition function {O} (outputs : gmap string D → I → O)
    (updates : updates_list)
    : option (gmap string D → I → O * gmap string D) :=
  if updates_accepted updates then Some (call outputs updates) else None.
End graph.

Arguments variable : clear implicits.
Arguments Variable_ {D I A} _ _.
Arguments dtype_of {D I A} _.
Arguments eval {D I A} _ _ _.
Arguments updates_list : clear implicits.

End Theano.
Export Theano.

(** ** Notebook 03: the trivial problem *)

Module Trivial.

Definition LEARNING_RATE : Q := 0.6.
Definition NUM_UPDATES : nat := 10.

Section notebook.
Context {T : Type} `{Scalar T}.
(** [config.floatX] of the Theano installation. *)
Context (floatX : dtype).
Local Open Scope scalar_scope.

(** The compiled function takes [x] and [target]. *)
Local Abbreviation inputs := (list T * T)%type.
Local Abbreviation var A := (variable (list T) inputs A).

(** [x = theano.tensor.fvector('x')],
    [target = theano.tensor.fscalar('target')] *)
Definition x : var (list T) := input float32 fst.
Definition target : var T := input float32 snd.

(** [W = theano.shared(numpy.asarray([0.2, 0.7]), 'W')] *)
Definition W_value : ndarray (list T) := asarray [of_Q 0.2; of_Q 0.7].
Definition W : shared_variable := (shared W_value "W").1.
Definition initial_store : gmap string (list T) :=
  let init := (shared W_value "W").2 in <[init.1 := init.2]> ∅.

(** [y = (x * W).sum()] *)
Definition y : var T := lift1 vsum (lift2 (vmap2 mul) x (read W)).

(** [cost = theano.tensor.sqr(target - y)] *)
Definition cost : var T := lift1 sqr (lift2 sub target y).

(** [gradients = theano.tensor.grad(cost, [W])].  Theano walks the graph
    of [cost] backwards with the local rule of each operation: [sqr]
    sends an incoming gradient [g] to [2 * (target - y) * g], the
    subtraction sends it to [- g] on the side of [y], [sum] hands it to
    every element, and [x * W] multiplies it by [x].  The gradient has
    the element type of the variable it is taken for. *)
Definition grad_cost_W (xs : list T) (t : T) (w : list T) : list T :=
  let g_cost := of_Q 1 in
  let g_diff := of_Q 2 * (t - vsum (vmap2 mul xs w)) * g_cost in
  let g_y := neg g_diff in
  map (λ xi, g_y * xi) xs.
Definition gradients : list (var (list T)) :=
  [ Variable_ (sv_dtype W) (λ st i, grad_cost_W i.1 i.2 (st !!! sv_name W)) ].

(** [W_updated = W - LEARNING_RATE * gradients[0]],
    [updates = [(W, W_updated)]] *)
Definition W_updated : var (list T) :=
  lift2 (vmap2 sub) (read W)
    (lift2 (λ c g, map (mul c) g) (constant floatX LEARNING_RATE)
           (gradients !!! 0%nat)).
Definition updates : updates_list (list T) inputs := [(W, W_updated)].

(** [f = theano.function([x, target], [y, W], updates=updates)] *)
Definition f_outputs (st : gmap string (list T)) (i : inputs) : T * list T :=
  (eval y st i, eval (read W) st i).
Definition f_compiled := function f_outputs updates.
Definition f := call f_outputs updates.

(** The loop of the last cell: what it prints, line by line, the value
    of [w] it leaves, and the store. *)
Record run := Run {
  store : gmap string (list T);
  last_w : option (list T);
  printed : list (nat * T)
}.

Definition loop_body (s : run) (update : nat) : run :=
  let '((y_, w_), st') := f (store s) ([of_Q 1; of_Q 0.5], of_Q 20) in
  Run st' (Some w_) (printed s ++ [((update + 1)%nat, y_)]).

Definition loop (num_updates : nat) : run :=
  foldl loop_body (Run initial_store None []) (seq 0 (num_updates + 1)).

(** The final [print]: [w[0]] and [w[1]]. *)
Definition final_weights (s : run) : option (T * T) :=
  w_ ← last_w s; w1 ← w_ !! 0%nat; w2 ← w_ !! 1%nat; Some (w1, w2).
End notebook.

End Trivial.

(** ** NumPy: functions on arrays, under the name the notebooks import
    NumPy by *)

Module np.
Section arrays.
Context {T : Type} `{Scalar T}.
Local Open Scope scalar_scope.

Local Abbreviation vector := (list T).
Local Abbreviation matrix := (list (list T)).

(** [np.zeros((n))], [np.zeros((n), dtype=t)] *)
Definition zeros (n : nat) : ndarray vector :=
  Ndarray float64 (replicate n (of_Q 0)).
Definition zeros_of (n : nat) (t : dtype) : ndarray vector :=
  Ndarray t (replicate n (of_Q 0)).

(** [np.empty((rows, cols))]: whatever the memory holds, here [junk]. *)
Definition empty (junk : T) (rows cols : nat) : ndarray matrix :=
  Ndarray float64 (replicate rows (replicate cols junk)).

(** [a[k:] = v] on a vector. *)
Definition assign_from (k : nat) (v : T) (a : vector) : vector :=
  take k a ++ replicate (length a - k) v.

(** [a.shape[1]] of a two-dimensional array with at least one row.  The
    list of the rows of an array without rows does not tell its width,
    which counts as 0 here. *)
Definition shape1 (a : matrix) : nat := length (hd [] a).

(** [np.random.normal(loc, scale, size=(rows, cols))], from the standard
    normal variates [z] drawn by the generator. *)
Definition random_normal (loc scale : Q) (shape : nat * nat) (z : nat → nat → T)
    : ndarray matrix :=
  Ndarray float64
    (map (λ r, map (λ c, of_Q loc + of_Q scale * z r c) (seq 0 shape.2))
         (seq 0 shape.1)).

(** [a.round()]: to the nearest integer, a tie to the even one. *)
Definition round (v : T) : T :=
  let f := floor v in
  let r := v - of_Z f in
  if ltb r (of_Q 0.5) then of_Z f
  else if ltb (of_Q 0.5) r then of_Z (f + 1)
  else if Z.even f then of_Z f else of_Z (f + 1).

(** [a.clip(lo, hi)] *)
Definition clip (lo hi : T) (v : T) : T :=
  if ltb v lo then lo else if ltb hi v then hi else v.

(** [a == b]: elementwise on equal shapes; an array of one element is
    broadcast over the other; on shapes that do not broadcast the NumPy
    of the notebook answers a lone [False]. *)
Definition equal (a b : vector) : list bool :=
  if bool_decide (length a = length b) then zip_with eqb a b
  else match a, b with
       | [a1], _ => map (eqb a1) b
       | _, [b1] => map (λ v, eqb v b1) a
       | _, _ => [false]
       end.

(** [m * 1.0] on booleans. *)
Definition as_float (m : list bool) : vector :=
  map (λ b : bool, if b then of_Q 1 else of_Q 0) m.
End arrays.
End np.

(** ** [theano.tensor]: operations on tensors *)

Module tensor.
Section tensors.
Context {T : Type} `{Scalar T}.
Local Open Scope scalar_scope.

Local Abbreviation vector := (list T).
Local Abbreviation matrix := (list (list T)).

(** [theano.tensor.mean]: the sum over the number of elements. *)
Definition mean (v : vector) : option T :=
  float_div (vsum v) (of_nat (length v)).

(** [theano.tensor.dot] of two matrices. *)
Fixpoint transpose (m : matrix) : matrix :=
  match m with
  | [] => []
  | [r] => map (λ a, [a]) r
  | r :: m' => zip_with cons r (transpose m')
  end.
Definition dot (a b : matrix) : matrix :=
  map (λ row, map (λ col, vsum (vmap2 mul row col)) (transpose b)) a.

(** [m + b] with [b] of shape [(1, n)], broadcast over the rows. *)
Definition add_broadcast (m b : matrix) : matrix :=
  map (λ row, vmap2 add row (hd [] b)) m.

(** [theano.tensor.gt(m, c)] and [theano.tensor.switch(cond, m, c)] with
    a scalar [c]. *)
Definition gt (m : matrix) (c : T) : list (list bool) :=
  map (map (λ v, ltb c v)) m.
Definition switch (cond : list (list bool)) (m : matrix) (c : T) : matrix :=
  zip_with (zip_with (λ (b : bool) v, if b then v else c)) cond m.

(** [theano.tensor.flatten] *)
Definition flatten (m : matrix) : vector := concat m.

(** [theano.tensor.nnet.nnet.sigmoid] *)
Definition sigmoid `{Exponential T} (v : T) : T :=
  of_Q 1 / (of_Q 1 + exp_ (neg v)).
End tensors.
End tensor.

(** ** float32: the arithmetic of the network's sigmoid

    The notebook's tensors are float32.  Their values are finite reals;
    what the real-valued operations above leave out is the rounding of a
    result to the nearest float32.  It is modelled here for the one
    operation whose claims depend on it, the sigmoid. *)

Module Float32.
Local Open Scope R_scope.

(** Rounding to the nearest integer, a tie to the even one. *)
Definition nearest_even (v : R) : Z :=
  let f := Int_part v in
  let r := v - IZR f in
  if Rlt_dec r (/ 2) then f
  else if Rlt_dec (/ 2) r then (f + 1)%Z
  else if Z.even f then f else (f + 1)%Z.

(** The quantum [2^e] of a real in binary32: significands have 24 bits,
    so [e] is the least exponent, from -149 (the subnormal numbers) up
    to 104, with [|x| < 2^(e + 24)]; there is none from [2^128] on. *)
Fixpoint quantum_from (x : R) (e : Z) (n : nat) : option Z :=
  match n with
  | O => None
  | S n => if Rlt_dec (Rabs x) (powerRZ 2 (e + 24)) then Some e
           else quantum_from x (e + 1) n
  end.
Definition quantum (x : R) : option Z := quantum_from x (-149) 254.

(** Rounding to the nearest float32, a tie to the even significand;
    [None] is an overflow to infinity. *)
Definition round32 (x : R) : option R :=
  e ← quantum x;
  let m := nearest_even (x * powerRZ 2 (- e)) in
  if bool_decide (Z.abs m < 2 ^ 24 ∨ e < 104)%Z
  then Some (IZR m * powerRZ 2 e) else None.

(** [theano.tensor.nnet.nnet.sigmoid] on a float32 [x]: Theano computes
    [1 / (1 + exp(-x))] and answers 0.0 and 1.0 outright beyond two
    cut-offs, [x < lo ? 0.0 : x > hi ? 1.0 : 1 / (1 + exp(-x))].  The
    cut-offs belong to the implementation at hand (-88 and 15 in the C
    code of its scalar sigmoid for float32, -30 and 30 in its Python
    code) and are parameters here.  The quotient is the exact sigmoid,
    rounded once. *)
Definition sigmoid (lo hi : R) (x : R) : option R :=
  if Rlt_dec x lo then Some 0
  else if Rlt_dec hi x then Some 1
  else round32 (tensor.sigmoid x).
End Float32.

(** ** Randomness: finite distributions *)

Module Random.

(** A finite distribution: outcomes with their probabilities.  An outcome
    may be listed more than once; a distribution with no outcome is a run
    that has stopped with an exception. *)
Abbreviation dist A := (list (A * Qc)).

Definition Qc_of_nat (n : nat) : Qc := Q2Qc (inject_Z (Z.of_nat n)).

Definition dret {A} (a : A) : dist A := [(a, 1%Qc)].

Definition dbind {A B} (d : dist A) (f : A → dist B) : dist B :=
  concat (map (λ ap, map (λ bq, (bq.1, (ap.2 * bq.2)%Qc)) (f ap.1)) d).

Definition dmap {A B} (f : A → B) (d : dist A) : dist B :=
  map (λ ap, (f ap.1, ap.2)) d.

(** [random.randrange(n)]: each of [0 .. n-1] with probability [1/n]; with
    [n = 0] it raises ValueError. *)
Definition randrange (n : nat) : dist nat :=
  map (λ i, (i, (1 / Qc_of_nat n)%Qc)) (seq 0 n).

(** The probability of an event. *)
Definition pr {A} (d : dist A) (event : A → bool) : Qc :=
  foldr (λ ap acc, if event ap.1 then (ap.2 + acc)%Qc else acc) 0%Qc d.

(** [for i in range: s = body(s, i)] in the distribution monad. *)
Fixpoint for_each {S} (range : list nat) (body : S → nat → dist S) (s : S)
    : dist S :=
  match range with
  | [] => dret s
  | i :: rest => dbind (body s i) (for_each rest body)
  end.

End Random.
Export Random.

(** ** Notebook 04: music genre prediction *)

Module Genre.

Definition SAMPLE_WIDTH : nat := 1200.
Definition BATCH_SIZE : nat := 16.
Definition LEARNING_RATE : Q := 0.01.
Definition NUM_UPDATES : nat := 5000.
Definition EVAL_STEP : nat := 500.

(** *** The data server *)

Module DataServer.
Section data_server.
Context {T : Type} `{Scalar T}.
Local Open Scope scalar_scope.

Record t := Build {
  train : ndarray (list (list T));
  test : ndarray (list (list T));
  test_targets : ndarray (list T)
}.

(** [DataServer.__init__], from the two arrays of the loaded file;
    [None] is a failed [assert]. *)
Definition init (data_train data_test : ndarray (list (list T)))
    : option t :=
  let train := astype float32 data_train in
  let test := astype float32 data_test in
  if bool_decide (np.shape1 (nd_data train) = SAMPLE_WIDTH) then
    let test_targets := np.zeros_of (length (nd_data test)) float32 in
    let test_targets :=
      Ndarray (nd_dtype test_targets)
        (np.assign_from (length (nd_data test_targets) / 2)%nat (of_Q 1)
                     (nd_data test_targets)) in
    Some (Build train test test_targets)
  else None.

Definition get_test (self : t)
    : ndarray (list (list T)) * ndarray (list T) :=
  (test self, test_targets self).

(** One turn of the loop of [get_train_sample]. *)
Definition sample_step (self : t)
    (arrays : list (list T) * list T) (idx : nat)
    : dist (list (list T) * list T) :=
  let '(inputs, targets) := arrays in
  dbind (randrange (length (nd_data (train self)))) (λ train_idx,
    let inputs := <[idx := nd_data (train self) !!! train_idx]> inputs in
    let targets :=
      if bool_decide (length (nd_data (train self)) / 2 ≤ train_idx)%nat
      then <[idx := of_Q 1]> targets else targets in
    dret (inputs, targets)).

Definition get_train_sample (junk : T) (self : t) (batch_size : nat)
    : dist (ndarray (list (list T)) * ndarray (list T)) :=
  let inputs := np.empty junk batch_size (np.shape1 (nd_data (train self))) in
  let targets := np.zeros batch_size in
  dbind (for_each (seq 0 batch_size) (sample_step self)
                  (nd_data inputs, nd_data targets))
    (λ arrays,
      dret (astype float32 (Ndarray (nd_dtype inputs) arrays.1),
            astype float32 (Ndarray (nd_dtype targets) arrays.2))).
End data_server.
Arguments t : clear implicits.
Arguments Build {T} _ _ _.
End DataServer.

(** *** The network, its cost and its updates *)

(** The type of [theano.tensor.grad] on this network: from the cost and
    the list of parameters to one gradient expression per parameter. *)
Abbreviation differentiation T :=
  (variable (list (list T)) (list (list T) * list T) (option T)
   → list shared_variable
   → list (variable (list (list T)) (list (list T) * list T)
                    (list (list T)))).

Section network.
Context {T : Type} `{Scalar T} `{Exponential T}.
(** [config.floatX]; the standard normal variates behind the initial
    value of each parameter; the content of uninitialised memory. *)
Context (floatX : dtype) (z : string → nat → nat → T) (junk : T).
Local Open Scope scalar_scope.

(** The inputs of the compiled functions: [x] and [target]. *)
Local Abbreviation inputs := (list (list T) * list T)%type.
Local Abbreviation var A := (variable (list (list T)) inputs A).

Definition init_values (shape : nat * nat) (z : nat → nat → T)
    : ndarray (list (list T)) :=
  let values := np.random_normal 0 0.1 shape z in
  astype float32 values.

(** [x = theano.tensor.fmatrix('x')],
    [target = theano.tensor.fvector('target')] *)
Definition x : var (list (list T)) := input float32 fst.
Definition target : var (list T) := input float32 snd.

(** The six shared variables with their initial values. *)
Definition W1_shared := shared (init_values (SAMPLE_WIDTH, 256) (z "W1")) "W1".
Definition B1_shared := shared (init_values (1, 256) (z "B1")) "B1".
Definition W2_shared := shared (init_values (256, 64) (z "W2")) "W2".
Definition B2_shared := shared (init_values (1, 64) (z "B2")) "B2".
Definition W3_shared := shared (init_values (64, 1) (z "W3")) "W3".
Definition B3_shared := shared (init_values (1, 1) (z "B3")) "B3".
Definition W1 := W1_shared.1.
Definition B1 := B1_shared.1.
Definition W2 := W2_shared.1.
Definition B2 := B2_shared.1.
Definition W3 := W3_shared.1.
Definition B3 := B3_shared.1.

Definition initial_store : gmap string (list (list T)) :=
  list_to_map [W1_shared.2; B1_shared.2; W2_shared.2; B2_shared.2;
               W3_shared.2; B3_shared.2].

(** [switch(gt(y, 0.0), y, 0.0)] *)
Definition rectifier (v : var (list (list T))) : var (list (list T)) :=
  let zero := constant floatX 0.0 in
  let cond :=
    Variable_ int8 (λ st i, tensor.gt (eval v st i) (eval zero st i)) in
  Variable_ (upcast (dtype_of v) (dtype_of zero))
    (λ st i, tensor.switch (eval cond st i) (eval v st i) (eval zero st i)).

(** Layer 1: [y = dot(x, W1) + B1], then the rectifier. *)
Definition y1_linear : var (list (list T)) :=
  lift2 tensor.add_broadcast (lift2 tensor.dot x (read W1)) (read B1).
Definition y1 := rectifier y1_linear.

(** Layer 2. *)
Definition y2_linear : var (list (list T)) :=
  lift2 tensor.add_broadcast (lift2 tensor.dot y1 (read W2)) (read B2).
Definition y2 := rectifier y2_linear.

(** Layer 3: [dot(y, W3) + B3], [flatten], [sigmoid]. *)
Definition y3_linear : var (list (list T)) :=
  lift2 tensor.add_broadcast (lift2 tensor.dot y2 (read W3)) (read B3).
Definition y3_flat : var (list T) := lift1 tensor.flatten y3_linear.
Definition y : var (list T) := lift1 (map tensor.sigmoid) y3_flat.

(** [cost = sqr(target - y)], [cost = mean(cost)] *)
Definition cost_elementwise : var (list T) :=
  lift1 (map sqr) (lift2 (vmap2 sub) target y).
Definition cost : var (option T) := lift1 tensor.mean cost_elementwise.

Definition params : list shared_variable := [W1; B1; W2; B2; W3; B3].

(** [gradients = theano.tensor.grad(cost, params)]: Theano's
    differentiation, of which the notebook uses that it returns one
    expression per parameter, in the order of [params]. *)
Context (grad : var (option T) → list shared_variable
                → list (var (list (list T)))).
Definition gradients := grad cost params.

(** The loop that builds [updates]. *)
Definition updated_param (param : shared_variable) (param_idx : nat)
    : var (list (list T)) :=
  lift2 (mmap2 sub) (read param)
    (lift2 (λ g c, mmap (λ v, v * c) g) (gradients !!! param_idx)
           (constant floatX LEARNING_RATE)).

Definition updates : updates_list (list (list T)) inputs :=
  foldl (λ updates ip, updates ++ [(ip.2, updated_param ip.2 ip.1)])
        [] (zip (seq 0 (length params)) params).

(** [train = theano.function([x, target], updates=updates)],
    [test = theano.function([x], y)] *)
Definition train_compiled := function (λ _ _, ()) updates.
Definition train := call (I:=inputs) (λ _ _, ()) updates.

Definition test_compiled := function (λ st i, eval y st i) [].
Definition test (st : gmap string (list (list T))) (x_ : list (list T))
    : list T * gmap string (list (list T)) :=
  call (λ st i, eval y st i) [] st (x_, []).

(** *** The training loop *)

(** A printed line: "Accuracy after update {}/{}: {}%". *)
Record report := Report {
  step : nat; total : nat; percent : option T
}.

Record state := State {
  store : gmap string (list (list T));
  stdout : list report
}.

(** [performance]: matches counted and divided by the number of
    examples, for predictions and targets of one length.  (On shapes
    that do not broadcast, [==] answers a lone [False] and the code
    stops at [.sum()] with an AttributeError, which this number does
    not show.) *)
Definition performance (predictions targets : list T) : option T :=
  float_div (vsum (np.as_float (np.equal predictions targets)))
            (of_nat (length targets)).

(** The body of [if (i + 1) % EVAL_STEP == 0]. *)
Definition evaluation (ds : DataServer.t T) (num_updates i : nat) (s : state)
    : state :=
  let '(inputs, targets) := DataServer.get_test ds in
  let '(predictions, st) := test (store s) (nd_data inputs) in
  let predictions :=
    map (np.clip (of_Q 0) (of_Q 1)) (map np.round predictions) in
  let performance := performance predictions (nd_data targets) in
  State st (stdout s ++
    [Report (i + 1) num_updates ((λ p, p * of_Q 100) <$> performance)]).

(** One turn of the loop; [(i + 1) % 0] raises ZeroDivisionError. *)
Definition loop_body (ds : DataServer.t T)
    (num_updates eval_step batch_size : nat) (s : state) (i : nat)
    : dist state :=
  dbind (DataServer.get_train_sample junk ds batch_size) (λ batch,
    let '(_, st) := train (store s) (nd_data batch.1, nd_data batch.2) in
    let s := State st (stdout s) in
    match eval_step with
    | O => []
    | _ => if bool_decide ((i + 1) `mod` eval_step = 0)%nat
           then dret (evaluation ds num_updates i s)
           else dret s
    end).

Definition training_loop (ds : DataServer.t T)
    (num_updates eval_step batch_size : nat)
    (st : gmap string (list (list T))) : dist state :=
  for_each (seq 0 num_updates)
           (loop_body ds num_updates eval_step batch_size) (State st []).

(** The last-but-one cell, as the notebook runs it. *)
Definition main (ds : DataServer.t T) : dist state :=
  training_loop ds NUM_UPDATES EVAL_STEP BATCH_SIZE initial_store.

(** The last cell: [params = theano.function([], params)],
    [params = params()], and what the loop prints of each value: its
    index, its dtype and its shape. *)
Definition params_call (st : gmap string (list (list T)))
    : list (ndarray (list (list T))) * gmap string (list (list T)) :=
  call (I:=inputs)
       (λ st i, map (λ p, Ndarray (sv_dtype p) (eval (read p) st i)) params)
       [] st ([], []).

Definition print_params (st : gmap string (list (list T)))
    : list (nat * dtype * (nat * nat)) :=
  imap (λ param_idx param,
          (param_idx, nd_dtype param,
           (length (nd_data param), np.shape1 (nd_data param))))
       (params_call st).1.
End network.

End Genre.

(** ** The specification's notions, and closed forms for the proofs *)

Module Spec.

(** Every output is strictly closer to [t] than the one before it. *)
Fixpoint approaching (t : Q) (outs : list Q) : Prop :=
  match outs with
  | a :: (b :: _) as rest =>
      (Qabs (t - b) < Qabs (t - a))%Q ∧ approaching t rest
  | _ => True
  end.

(** [a] is within the relative tolerance [tol] of [ref]. *)
Definition within (tol ref a : Q) : Prop :=
  (Qabs (a - ref) <= tol * Qabs ref)%Q.

(** The error [20 - y] and the weights of the trivial example after [n]
    updates, in closed form: the error starts at 19.45 = 389/20 and is
    halved, with a change of sign, by every update. *)
Definition error_after (n : nat) : R := (389 / 20 * (- / 2) ^ n)%R.
Definition weights_after (n : nat) : list R :=
  [(1 / 5 + 4 / 5 * (389 / 20 - error_after n))%R;
   (7 / 10 + 2 / 5 * (389 / 20 - error_after n))%R].

Section loss.
Local Open Scope R_scope.

(** "Mean squared error, mean((target - prediction)^2) over the batch":
    the squares of the differences, summed example by example, over the
    number of examples; of no example there is no mean. *)
Fixpoint squared_errors (target prediction : list R) : R :=
  match target, prediction with
  | t :: target, p :: prediction =>
      (t - p) * (t - p) + squared_errors target prediction
  | _, _ => 0
  end.
Definition mean_squared_error (target prediction : list R) : option R :=
  match target with
  | [] => None
  | _ :: _ => Some (squared_errors target prediction / INR (length target))
  end.
End loss.

Section sampling.
Context {T : Type} `{Scalar T}.

(** "Label 0.0 if the index falls in the first half of the collection,
    1.0 otherwise", the first half of [n] examples being the first
    [n / 2]. *)
Definition halves_label (n i : nat) : T :=
  if bool_decide (i < n / 2)%nat then of_Q 0 else of_Q 1.

(** "Draws [batch_size] indices independently and uniformly at random,
    with replacement": every sequence of [batch_size] indices below [n],
    repeated indices included, each with probability [(1/n)^batch_size]. *)
Fixpoint sequences (n batch_size : nat) : list (list nat) :=
  match batch_size with
  | O => [[]]
  | S k => i ← seq 0 n; cons i <$> sequences n k
  end.
Definition independent_uniform (n batch_size : nat) : dist (list nat) :=
  map (λ idxs, (idxs, Qcpower (1 / Qc_of_nat n)%Qc batch_size))
      (sequences n batch_size).
End sampling.

Section training.
Context {T : Type} `{Scalar T} `{Exponential T}.

End training.

Section accuracy.
Local Open Scope R_scope.




End accuracy.

Section rows.
Context {T : Type} `{Scalar T}.

(** The network example by example: a layer [dot(v, W) + B] on one row,
    the rectifier on one row, and the three layers before the sigmoid. *)
Definition linear_row (W B : list (list T)) (row : list T) : list T :=
  vmap2 add (map (λ col, vsum (vmap2 mul row col)) (tensor.transpose W))
        (hd [] B).
Definition rectifier_row (c : T) (row : list T) : list T :=
  zip_with (λ (b : bool) v, if b then v else c) (map (λ v, ltb c v) row) row.
Definition forward_row (st : gmap string (list (list T))) (row : list T)
    : list T :=
  linear_row (st !!! "W3") (st !!! "B3")
    (rectifier_row (of_Q 0.0)
       (linear_row (st !!! "W2") (st !!! "B2")
          (rectifier_row (of_Q 0.0)
             (linear_row (st !!! "W1") (st !!! "B1") row)))).
End rows.

End Spec.
Export Spec.

(** ** Small instances, for running the definitions *)

Module Examples.

(** A network of one unit per layer with all weights zero. *)
Definition tiny_store : gmap string (list (list R)) :=
  list_to_map [("W1", [[0%R]]); ("B1", [[0%R]]); ("W2", [[0%R]]);
               ("B2", [[0%R]]); ("W3", [[0%R]]); ("B3", [[0%R]])].

Definition no_variates : string → nat → nat → R := λ _ _ _, 0%R.

(** The arrays of a file with two training examples and three held-out
    examples, all silent, and the data server made from them. *)
Definition silence : list Q := replicate Genre.SAMPLE_WIDTH 0%Q.
Definition file_train : ndarray (list (list Q)) :=
  Ndarray float64 [silence; silence].
Definition file_test : ndarray (list (list Q)) :=
  Ndarray float64 [silence; silence; silence].
Definition loaded_server : Genre.DataServer.t Q :=
  Genre.DataServer.Build (astype float32 file_train) (astype float32 file_test)
                         (Ndarray float32 [0%Q; 1%Q; 1%Q]).

Definition small_server_Q : Genre.DataServer.t Q :=
  Genre.DataServer.Build (Ndarray float32 [[0%Q]; [1%Q]])
                         (Ndarray float32 [[1%Q]]) (Ndarray float32 [1%Q]).

(** A gradient provider that answers the same constant for every
    parameter. *)
Definition constant_grad : Genre.differentiation R :=
  λ _ ps, map (λ _, Variable_ float32 (λ _ _, [[1%R]])) ps.

(** A data server of two training examples and one held-out example. *)
Definition small_server : Genre.DataServer.t R :=
  Genre.DataServer.Build (Ndarray float32 [[0%R]; [1%R]])
                         (Ndarray float32 [[1%R]]) (Ndarray float32 [1%R]).


(** The same file over the reals, and its data server. *)
Definition silent_train : ndarray (list (list R)) :=
  Ndarray float64 [replicate Genre.SAMPLE_WIDTH 0%R;
                   replicate Genre.SAMPLE_WIDTH 0%R].
Definition silent_test : ndarray (list (list R)) :=
  Ndarray float64 [replicate Genre.SAMPLE_WIDTH 0%R;
                   replicate Genre.SAMPLE_WIDTH 0%R;
                   replicate Genre.SAMPLE_WIDTH 0%R].
Definition silent_server : Genre.DataServer.t R :=
  Genre.DataServer.Build (astype float32 silent_train)
                         (astype float32 silent_test)
                         (Ndarray float32 [Q2R 0; Q2R 1; Q2R 1]).

End Examples.

(** * Theorems *)

(** ** Notebook 03 *)

Section trivial_facts.
Local Open Scope R_scope.
Import Trivial.

(** Replacing one weight moves the weighted sum by that input times the
    change of the weight. *)
Lemma vsum_mul_insert (xs w : list R) (i : nat) (xi wi t : R) :
  xs !! i = Some xi → w !! i = Some wi →
  vsum (vmap2 mul xs (<[i:=t]> w)) = vsum (vmap2 mul xs w) + xi * (t - wi).
Proof.
  revert w i. induction xs as [|a xs IH]; intros [|b w] [|i] Hx Hw;
    simplify_eq/=; try lra.
  rewrite (IH w i) by done. lra.
Qed.

Lemma eval_y (st : gmap string (list R)) xs t :
  eval y st (xs, t) = vsum (vmap2 mul xs (st !!! "W")).
Proof. reflexivity. Qed.

Lemma eval_cost (st : gmap string (list R)) xs t :
  eval cost st (xs, t) = (t - eval y st (xs, t)) * (t - eval y st (xs, t)).
Proof. reflexivity. Qed.

(** A squared affine function of one real variable and its derivative. *)
Lemma derivable_sqr_affine (a b t0 : R) :
  derivable_pt_lim (λ t, (a - b * (t - t0)) * (a - b * (t - t0))) t0
                   (-2 * b * a).
Proof.
  intros eps Heps.
  assert (Hd : 0 < eps / (b * b + 1)) by (apply Rdiv_lt_0_compat; nra).
  exists (mkposreal _ Hd). intros h Hh Hlt. simpl in Hlt.
  replace ((_ - _) / h - _) with (b * b * h) by (field; done).
  rewrite Rabs_mult, (Rabs_pos_eq (b * b)) by nra.
  apply Rle_lt_trans with ((b * b + 1) * Rabs h).
  - pose proof (Rabs_pos h). nra.
  - apply Rlt_le_trans with ((b * b + 1) * (eps / (b * b + 1))).
    + apply Rmult_lt_compat_l; nra.
    + apply Req_le. field. nra.
Qed.

(** C3.  For the linear model [y = (x * W).sum()] with loss
    [sqr(target - y)], at every point [(x, target, w)], with as many
    inputs as weights, and every weight component [i]: the loss, as a
    function of [w_i] alone, has derivative [-2 * x_i * (target - w.x)]
    there, and that is the [i]-th component of what [gradients]
    evaluates to. *)
Theorem trivial_gradient (st : gmap string (list R)) (xs : list R)
    (t : R) (i : nat) (xi wi : R) :
  length xs = length (st !!! "W" : list R) →
  xs !! i = Some xi → (st !!! "W" : list R) !! i = Some wi →
  derivable_pt_lim
    (λ v, eval cost (<["W" := <[i:=v]> (st !!! "W")]> st) (xs, t)) wi
    (-2 * xi * (t - eval y st (xs, t)))
  ∧ eval (gradients !!! 0%nat) st (xs, t) !! i
    = Some (-2 * xi * (t - eval y st (xs, t))).
Proof.
  intros _ Hx Hw. split.
  - pose proof (derivable_sqr_affine (t - eval y st (xs, t)) xi wi) as Hd.
    intros eps Heps. destruct (Hd eps Heps) as [delta Hdelta].
    exists delta. intros h Hh Hlt. specialize (Hdelta h Hh Hlt).
    rewrite !eval_cost, !eval_y, !lookup_total_insert_eq.
    rewrite !(vsum_mul_insert xs _ i xi wi) by done.
    rewrite eval_y in Hdelta.
    match goal with H : Rabs ?a < _ |- Rabs ?b < _ =>
      replace b with a; [exact H|] end.
    unfold Rdiv. f_equal. f_equal. simpl. f_equal; f_equal; lra.
  - simpl. unfold grad_cost_W. rewrite list_lookup_fmap, Hx. simpl.
    f_equal. unfold neg. simpl. unfold Q2R. simpl. lra.
Qed.

(** The witness of C3: two inputs, two weights, the second component. *)
Lemma trivial_gradient_witness :
  let st : gmap string (list R) := <["W" := [2; 3]]> ∅ in
  derivable_pt_lim
    (λ v, eval cost (<["W" := <[1%nat:=v]> (st !!! "W")]> st) ([1; 5], 7)) 3
    (-2 * 5 * (7 - eval y st ([1; 5], 7)))
  ∧ eval (gradients !!! 0%nat) st ([1; 5], 7) !! 1%nat
    = Some (-2 * 5 * (7 - eval y st ([1; 5], 7))).
Proof.
  intros st. apply (trivial_gradient st [1; 5] 7 1 5 3); reflexivity.
Defined.
End trivial_facts.

Section trivial_run.
Import Trivial.
Local Open Scope Q_scope.

Lemma trivial_step floatX (st : gmap string (list R)) (n : nat) :
  st !!! "W" = weights_after n →
  f floatX st ([of_Q 1; of_Q 0.5], of_Q 20)
  = ((20 - error_after n, weights_after n),
     <["W" := weights_after (S n)]> st)%R.
Proof.
  intros HW. unfold f, call, f_outputs, write_updates. simpl.
  rewrite HW. unfold grad_cost_W, neg, weights_after, error_after. simpl.
  unfold Q2R. simpl.
  f_equal; [f_equal; lra|]. f_equal. f_equal; [lra|]. f_equal. lra.
Qed.

Lemma trivial_loop_body floatX (s : run) (n update : nat) :
  store s !!! "W" = weights_after n →
  loop_body floatX s update
  = Run (<["W" := weights_after (S n)]> (store s)) (Some (weights_after n))
        (printed s ++ [((update + 1)%nat, (20 - error_after n)%R)]).
Proof. intros HW. unfold loop_body. by rewrite (trivial_step floatX _ n HW). Qed.

(** The store and the printed lines after [n] turns of the loop. *)
Lemma trivial_loop_closed_form floatX (n : nat) :
  store (foldl (loop_body floatX) (Run initial_store None []) (seq 0 n))
    !!! "W" = weights_after n
  ∧ printed (foldl (loop_body floatX) (Run initial_store None []) (seq 0 n))
    = map (λ k, (S k, (20 - error_after k)%R)) (seq 0 n).
Proof.
  induction n as [|n [IHW IHp]].
  - split; [|done]. cbn [seq foldl store].
    change (initial_store (T:=R))
      with (<["W" := [Q2R 0.2; Q2R 0.7]]> (∅ : gmap string (list R))).
    rewrite lookup_total_insert_eq.
    unfold weights_after, error_after, Q2R. simpl. f_equal; [lra|f_equal; lra].
  - rewrite seq_S, foldl_app. cbn [foldl Nat.add].
    rewrite (trivial_loop_body floatX _ n n IHW). cbn [store printed]. split.
    + apply lookup_total_insert_eq.
    + rewrite IHp, map_app. cbn [map]. by rewrite Nat.add_1_r.
Qed.

(** C1.  With x = [1.0, 0.5], target 20.0, initial weights [0.2, 0.7]
    and learning rate 0.6, the eleven calls of [f] print eleven outputs,
    each computed before its update, the first 0.55 = 11/20 and each
    strictly closer to 20 than the one before, the last within 0.02 of
    20; the weights printed at the end and the weights in the store after
    the eleventh update are both within 1% of w1 = 15.74 and w2 = 8.47.
    Whatever the number of updates, the output before update [k + 1] is
    at distance [19.45 / 2^k] from 20. *)
Theorem trivial_convergence (floatX : dtype) :
  (∃ outs w1 w2 w1' w2',
     let r := loop (T:=Q) floatX NUM_UPDATES in
     printed r = zip (seq 1 11) outs ∧ length outs = 11%nat ∧
     head outs = Some (11 # 20) ∧
     approaching 20 outs ∧
     (∀ o, last outs = Some o → Qabs (20 - o) < 0.02) ∧
     final_weights r = Some (w1, w2) ∧
     store r !! "W" = Some [w1'; w2'] ∧
     within 0.01 15.74 w1 ∧ within 0.01 8.47 w2 ∧
     within 0.01 15.74 w1' ∧ within 0.01 8.47 w2')
  ∧ (∀ n k : nat, (k ≤ n)%nat →
       ∃ y_k : R,
         printed (loop (T:=R) floatX n) !! k = Some (S k, y_k)
         ∧ Rabs (20 - y_k) = (389 / 20 * (/ 2) ^ k)%R).
Proof.
  split.
  - exists (map snd (printed (loop (T:=Q) floatX NUM_UPDATES))).
    exists (403067 # 25600), (433787 # 51200),
           (807301 # 51200), (868741 # 102400).
    destruct floatX; vm_compute; repeat split; intros; simplify_eq; try done.
  - intros n k Hk. exists (20 - error_after k)%R. split.
    + unfold loop.
      destruct (trivial_loop_closed_form floatX (n + 1)) as [_ ->].
      rewrite list_lookup_fmap, lookup_seq_lt by lia. done.
    + unfold error_after.
      replace (20 - (20 - _))%R with (389 / 20 * (- / 2) ^ k)%R by lra.
      rewrite Rabs_mult, <- RPow_abs, Rabs_Ropp, !Rabs_pos_eq; lra.
Qed.

(** The witness of C1: the last of the eleven outputs. *)
Lemma trivial_convergence_witness :
  ∃ y_k : R,
    printed (loop (T:=R) float32 NUM_UPDATES) !! 10%nat = Some (11%nat, y_k)
    ∧ Rabs (20 - y_k) = (389 / 20 * (/ 2) ^ 10)%R.
Proof.
  apply (proj2 (trivial_convergence float32) NUM_UPDATES 10%nat).
  unfold NUM_UPDATES. lia.
Defined.
End trivial_run.

(** ** Compiled functions *)

Section function_facts.
Context {D I : Type}.
Implicit Types (st : gmap string D) (updates : updates_list D I).

Lemma write_updates_snoc st i updates u :
  write_updates st i (updates ++ [u])
  = <[sv_name u.1 := eval u.2 st i]> (write_updates st i updates).
Proof. unfold write_updates. by rewrite foldl_app. Qed.

(** A variable without an update keeps its value. *)
Lemma write_updates_other st i updates name :
  name ∉ map (λ u, sv_name u.1) updates →
  write_updates st i updates !! name = st !! name.
Proof.
  induction updates as [|u updates IH] using rev_ind; [done|].
  rewrite map_app, write_updates_snoc. simpl.
  intros [Hn Hu]%not_elem_of_app.
  rewrite lookup_insert_ne; [by apply IH|].
  intros Heq. apply Hu. rewrite Heq. apply list_elem_of_here.
Qed.

(** An updated variable holds its update expression, evaluated in the
    store of before the call. *)
Lemma write_updates_lookup st i updates s e :
  NoDup (map (λ u, sv_name u.1) updates) → (s, e) ∈ updates →
  write_updates st i updates !! sv_name s = Some (eval e st i).
Proof.
  induction updates as [|u updates IH] using rev_ind; [set_solver|].
  rewrite map_app, write_updates_snoc. simpl.
  intros [Hnd [Hdisj _]]%NoDup_app [Hin|Hin]%elem_of_app.
  - rewrite lookup_insert_ne; [by apply IH|].
    intros Heq. apply (Hdisj (sv_name s)); [|set_solver].
    apply list_elem_of_fmap. by exists (s, e).
  - apply list_elem_of_singleton in Hin. subst u. simpl.
    by rewrite lookup_insert_eq.
Qed.

(** A function compiled without updates leaves the store alone. *)
Lemma call_no_updates {O} (outputs : gmap string D → I → O) st i :
  (call outputs [] st i).2 = st.
Proof. reflexivity. Qed.
End function_facts.

(** ** The update rule *)

Section update_rule.
Context {T : Type} `{Scalar T} `{Exponential T}.
Context (floatX : dtype) (z : string → nat → nat → T).
Context (grad : Genre.differentiation T).
Import Genre.
Local Open Scope scalar_scope.

(** The list the loop over [enumerate(params)] builds. *)
Lemma updates_unfold :
  updates floatX z grad
  = map (λ ip, (ip.2, updated_param floatX z grad ip.2 ip.1))
        (zip (seq 0 (length (params z))) (params z)).
Proof. reflexivity. Qed.

Lemma updates_names :
  map (λ u, sv_name u.1) (updates floatX z grad)
  = ["W1"; "B1"; "W2"; "B2"; "W3"; "B3"].
Proof. reflexivity. Qed.

Lemma updates_elem i p :
  params z !! i = Some p →
  (p, updated_param floatX z grad p i) ∈ updates floatX z grad.
Proof.
  intros Hp. rewrite updates_unfold.
  apply list_elem_of_fmap. exists (i, p). split; [done|].
  apply list_elem_of_lookup. exists i.
  rewrite lookup_zip_with, lookup_seq_lt, Hp; [done|].
  by apply lookup_lt_Some in Hp.
Qed.

(** After a call of [train], every parameter holds its old value minus
    its gradient times the learning rate, the gradient being evaluated
    in the store of before the call. *)
Lemma train_lookup st batch i p :
  params z !! i = Some p →
  (train floatX z grad st batch).2 !! sv_name p
  = Some (mmap2 sub (st !!! sv_name p)
            (mmap (λ v, v * of_Q LEARNING_RATE)
                  (eval (gradients floatX z grad !!! i) st batch))).
Proof.
  intros Hp. unfold train, call. simpl.
  rewrite (write_updates_lookup st batch _ p (updated_param floatX z grad p i)).
  - reflexivity.
  - rewrite updates_names. by apply (bool_decide_unpack _).
  - by apply updates_elem.
Qed.

Lemma mmap2_sub_lookup (a g : list (list T)) (f : T → T) r c v gv :
  a !! r ≫= (.!! c) = Some v → g !! r ≫= (.!! c) = Some gv →
  mmap2 sub a (mmap f g) !! r ≫= (.!! c) = Some (v - f gv).
Proof.
  unfold mmap2, mmap. intros Ha Hg.
  rewrite lookup_zip_with, list_lookup_fmap.
  destruct (a !! r) as [ra|]; [|done]. destruct (g !! r) as [rg|]; [|done].
  simpl in *. rewrite lookup_zip_with, list_lookup_fmap, Ha, Hg. done.
Qed.
End update_rule.

Section update_rule_reals.
Local Open Scope R_scope.

(** C2.  One call of [train] replaces every parameter [params[i]],
    element by element, by its old value minus the learning rate times
    [gradients[i]]; every gradient is evaluated in the store as it was
    before the call, so no update of the same step is visible to it.
    The same holds of [W] in the trivial example. *)
Theorem gradient_descent_update (floatX : dtype)
    (z : string → nat → nat → R)
    (grad : Genre.differentiation R)
    (st : gmap string (list (list R))) (batch : list (list R) * list R)
    (i : nat) (p : shared_variable) :
  Genre.params z !! i = Some p →
  (∃ new, (Genre.train floatX z grad st batch).2 !! sv_name p = Some new ∧
     ∀ r c v g,
       (st !!! sv_name p : list (list R)) !! r ≫= (.!! c) = Some v →
       eval (Genre.gradients floatX z grad !!! i) st batch !! r ≫= (.!! c)
         = Some g →
       new !! r ≫= (.!! c) = Some (v - Q2R Genre.LEARNING_RATE * g))
  ∧ (∀ (w : gmap string (list R)) xs t,
      ∃ new, (Trivial.f floatX w (xs, t)).2 !! "W" = Some new ∧
        ∀ k v g,
          (w !!! "W" : list R) !! k = Some v →
          eval (Trivial.gradients !!! 0%nat) w (xs, t) !! k = Some g →
          new !! k = Some (v - Q2R Trivial.LEARNING_RATE * g)).
Proof.
  intros Hp. split.
  - eexists. split; [by apply train_lookup|].
    intros r c v g Hv Hg.
    rewrite (mmap2_sub_lookup _ _ _ r c v g Hv Hg).
    simpl. f_equal. lra.
  - intros w xs t. eexists. split; [apply lookup_insert_eq|].
    intros k v g Hv Hg. simpl in *.
    unfold vmap2. rewrite lookup_zip_with, Hv. simpl.
    rewrite list_lookup_fmap, Hg. done.
Qed.

(** The witness of C2: the first parameter, with a gradient provider
    that answers a constant. *)
Lemma gradient_descent_update_witness :
  let st : gmap string (list (list R)) := <["W1" := [[5]]]> ∅ in
  ∃ new,
    (Genre.train float32 Examples.no_variates Examples.constant_grad
       st ([], [])).2 !! "W1" = Some new ∧
    ∀ r c v g,
      (st !!! "W1" : list (list R)) !! r ≫= (.!! c) = Some v →
      eval (Genre.gradients float32 Examples.no_variates
              Examples.constant_grad !!! 0%nat) st ([], [])
        !! r ≫= (.!! c) = Some g →
      new !! r ≫= (.!! c) = Some (v - Q2R Genre.LEARNING_RATE * g).
Proof.
  intros st.
  exact (proj1 (gradient_descent_update float32 Examples.no_variates
                  Examples.constant_grad st ([], []) 0
                  (Genre.W1 Examples.no_variates) eq_refl)).
Defined.
End update_rule_reals.

(** ** The loss *)

Section loss_facts.
Local Open Scope R_scope.

Lemma of_nat_R (n : nat) : of_nat (T:=R) n = INR n.
Proof. unfold of_nat. simpl. unfold Q2R. simpl. rewrite INR_IZR_INZ. lra. Qed.

Lemma float_div_zero_R (n : nat) :
  (0 < n)%nat → float_div (T:=R) 0 (of_nat n) = Some 0.
Proof.
  intros Hn. unfold float_div. rewrite of_nat_R. simpl.
  replace (Q2R 0) with 0 by (unfold Q2R; simpl; lra).
  destruct (Req_dec_T (INR n) 0) as [Heq|_].
  - apply (INR_eq n 0) in Heq. lia.
  - f_equal. unfold Rdiv. apply Rmult_0_l.
Qed.

(** The sum Theano takes is the sum of the squares of the differences:
    [sqr] is the square. *)
Lemma vsum_squared_errors (target prediction : list R) :
  vsum (map sqr (vmap2 sub target prediction))
  = squared_errors target prediction.
Proof.
  unfold vmap2. revert prediction. induction target as [|t target IH];
    intros [|p prediction]; cbn [zip_with map squared_errors];
    try (unfold vsum; simpl; unfold Q2R; simpl; lra).
  change (add (sqr (sub t p))
              (vsum (map sqr (zip_with sub target prediction)))
          = (t - p) * (t - p) + squared_errors target prediction).
  rewrite IH. unfold sqr. simpl. lra.
Qed.

Lemma squared_errors_same (v : list R) : squared_errors v v = 0.
Proof. induction v as [|a v IH]; simpl; [done|]. rewrite IH. lra. Qed.

(** Theano's mean of the squares is the mean squared error, and of no
    example it is 0/0. *)
Lemma mean_is_mean_squared_error (target prediction : list R) :
  length prediction = length target →
  tensor.mean (map sqr (vmap2 sub target prediction))
  = mean_squared_error target prediction.
Proof.
  intros Hlen. unfold tensor.mean, float_div.
  rewrite vsum_squared_errors, of_nat_R, length_map. unfold vmap2.
  rewrite length_zip_with, Hlen, Nat.min_id. simpl eqb.
  replace (Q2R 0) with 0 by (unfold Q2R; simpl; lra).
  destruct target as [|t target].
  - cbn [length INR]. by destruct (Req_dec_T 0 0).
  - destruct (Req_dec_T (INR (length (t :: target))) 0) as [Heq|_]; [|done].
    apply (INR_eq _ 0) in Heq. done.
Qed.

Lemma eval_genre_cost {T} `{Scalar T} `{Exponential T} floatX
    (z : string → nat → nat → T) st xs t :
  eval (Genre.cost floatX z) st (xs, t)
  = tensor.mean (map sqr (vmap2 sub t (eval (Genre.y floatX z) st (xs, t)))).
Proof. reflexivity. Qed.

(** The counterexample to C4: the batch of no example.  Each of its
    predictions equals its target, there being none of either, and its
    loss is not 0: the mean of no number is 0/0, nan. *)
Lemma loss_of_empty_batch :
  eval (Genre.y float32 Examples.no_variates) Examples.tiny_store ([], [])
  = []
  ∧ eval (Genre.cost float32 Examples.no_variates) Examples.tiny_store
         ([], []) = None
  ∧ eval (Genre.cost float32 Examples.no_variates) Examples.tiny_store
         ([], []) ≠ Some 0.
Proof.
  assert (Hcost : eval (Genre.cost float32 Examples.no_variates)
                       Examples.tiny_store ([], []) = None).
  { rewrite eval_genre_cost.
    by rewrite mean_is_mean_squared_error by reflexivity. }
  split; [reflexivity|]. split; [exact Hcost|]. by rewrite Hcost.
Qed.

(** C4, amended.  The training loss is the mean over the batch of the
    squares of the differences between target and prediction, and on a
    batch of at least one example whose predictions equal the targets it
    is exactly 0.  In the trivial example the batch is the one
    example. *)
Theorem loss_is_mean_squared_error (floatX : dtype)
    (z : string → nat → nat → R) (st : gmap string (list (list R)))
    (xs : list (list R)) (t : list R) :
  length (eval (Genre.y floatX z) st (xs, t)) = length t →
  eval (Genre.cost floatX z) st (xs, t)
    = mean_squared_error t (eval (Genre.y floatX z) st (xs, t))
  ∧ (t ≠ [] → eval (Genre.y floatX z) st (xs, t) = t →
     eval (Genre.cost floatX z) st (xs, t) = Some 0)
  ∧ (∀ (w : gmap string (list R)) (x1 : list R) (t1 : R),
       Some (eval Trivial.cost w (x1, t1))
         = mean_squared_error [t1] [eval Trivial.y w (x1, t1)]
       ∧ (eval Trivial.y w (x1, t1) = t1 →
          eval Trivial.cost w (x1, t1) = 0)).
Proof.
  intros Hlen.
  assert (Hcost : eval (Genre.cost floatX z) st (xs, t)
    = mean_squared_error t (eval (Genre.y floatX z) st (xs, t))).
  { rewrite eval_genre_cost. by apply mean_is_mean_squared_error. }
  split; [exact Hcost|]. split.
  - intros Hne Hy. rewrite Hcost, Hy. destruct t as [|t1 t]; [done|].
    unfold mean_squared_error. rewrite squared_errors_same.
    f_equal. unfold Rdiv. apply Rmult_0_l.
  - intros w x1 t1. split.
    + unfold mean_squared_error. cbn [squared_errors length INR].
      rewrite eval_cost. f_equal. lra.
    + intros Hy. rewrite eval_cost, Hy. lra.
Qed.

(** The witness of C4: the zero network on one example, with its own
    prediction as the target. *)
Lemma loss_is_mean_squared_error_witness :
  let st := Examples.tiny_store in
  let xs := [[1]] in
  let t := eval (Genre.y float32 Examples.no_variates) st (xs, []) in
  eval (Genre.cost float32 Examples.no_variates) st (xs, t) = Some 0.
Proof.
  intros st xs t.
  refine (proj1 (proj2 (loss_is_mean_squared_error float32
                          Examples.no_variates st xs t _)) _ _).
  - reflexivity.
  - intros Ht. apply (f_equal length) in Ht. vm_compute in Ht. discriminate.
  - reflexivity.
Defined.
End loss_facts.

(** ** The float32 sigmoid *)

Section float_facts.
Local Open Scope R_scope.

Lemma nearest_even_le (v : R) (N : Z) :
  v <= IZR N → (Float32.nearest_even v ≤ N)%Z.
Proof.
  intros Hv. unfold Float32.nearest_even.
  destruct (base_Int_part v) as [Hf1 Hf2].
  set (f := Int_part v) in *.
  assert (Hfn : (f ≤ N)%Z) by (apply le_IZR; lra).
  assert (Hstep : / 2 <= v - IZR f → (f + 1 ≤ N)%Z).
  { intros Hr. assert (f < N)%Z; [|lia]. apply lt_IZR. lra. }
  destruct (Rlt_dec (v - IZR f) (/ 2)); [done|].
  destruct (Rlt_dec (/ 2) (v - IZR f)); [apply Hstep; lra|].
  destruct (Z.even f); [done|apply Hstep; lra].
Qed.

Lemma nearest_even_ge (v : R) (N : Z) :
  IZR N <= v → (N ≤ Float32.nearest_even v)%Z.
Proof.
  intros Hv. unfold Float32.nearest_even.
  destruct (base_Int_part v) as [Hf1 Hf2].
  set (f := Int_part v) in *.
  assert (Hfn : (N ≤ f)%Z).
  { assert (N < f + 1)%Z; [|lia]. apply lt_IZR. rewrite plus_IZR. lra. }
  destruct (Rlt_dec (v - IZR f) (/ 2)); [done|].
  destruct (Rlt_dec (/ 2) (v - IZR f)); [lia|].
  destruct (Z.even f); [done|lia].
Qed.

Lemma nearest_even_near (v : R) (N : Z) :
  IZR N <= v < IZR N + / 2 → Float32.nearest_even v = N.
Proof.
  intros Hv. unfold Float32.nearest_even.
  assert (Hf : Int_part v = N) by (symmetry; apply Int_part_spec; lra).
  rewrite Hf. destruct (Rlt_dec (v - IZR N) (/ 2)); [done|lra].
Qed.

Lemma quantum_from_spec (x : R) (n : nat) :
  ∀ e e', Float32.quantum_from x e n = Some e' →
    (e ≤ e' < e + Z.of_nat n)%Z
    ∧ Rabs x < powerRZ 2 (e' + 24)
    ∧ ((e < e')%Z → powerRZ 2 (e' + 23) <= Rabs x).
Proof.
  induction n as [|n IH]; intros e e' Hq; [done|].
  cbn [Float32.quantum_from] in Hq.
  destruct (Rlt_dec (Rabs x) (powerRZ 2 (e + 24))) as [Hlt|Hge].
  - injection Hq as <-. split; [lia|]. split; [done|lia].
  - apply IH in Hq as (Hr & Hlt & Hmin). split; [lia|]. split; [done|].
    intros _. destruct (Z.eq_dec e' (e + 1)%Z) as [->|Hne].
    + replace (e + 1 + 23)%Z with (e + 24)%Z by lia. lra.
    + apply Hmin. lia.
Qed.

Lemma quantum_from_found (x : R) (n : nat) :
  ∀ e e0, (e ≤ e0 < e + Z.of_nat n)%Z → Rabs x < powerRZ 2 (e0 + 24) →
    ∃ e', Float32.quantum_from x e n = Some e' ∧ (e' ≤ e0)%Z.
Proof.
  induction n as [|n IH]; intros e e0 Hr Hx; [lia|].
  cbn [Float32.quantum_from].
  destruct (Rlt_dec (Rabs x) (powerRZ 2 (e + 24))) as [Hlt|Hge].
  - exists e. split; [done|lia].
  - destruct (Z.eq_dec e0 e) as [->|Hne]; [done|].
    destruct (IH (e + 1)%Z e0) as (e' & He' & Hle); [lia|done|].
    by exists e'.
Qed.

Lemma powerRZ_2_pos (e : Z) : 0 < powerRZ 2 e.
Proof. apply powerRZ_lt. lra. Qed.

Lemma powerRZ_2_add (a b : Z) : powerRZ 2 (a + b) = powerRZ 2 a * powerRZ 2 b.
Proof. apply powerRZ_add. lra. Qed.

Lemma powerRZ_2_cancel (e : Z) : powerRZ 2 (- e) * powerRZ 2 e = 1.
Proof. rewrite <- powerRZ_2_add. by replace (- e + e)%Z with 0%Z by lia. Qed.

Lemma powerRZ_2_IZR (k : Z) : (0 ≤ k)%Z → powerRZ 2 k = IZR (2 ^ k).
Proof.
  intros Hk. rewrite <- (Z2Nat.id k) by done.
  rewrite <- pow_powerRZ, <- pow_IZR. done.
Qed.

Lemma powerRZ_2_lt (a b : Z) : (a < b)%Z → powerRZ 2 a < powerRZ 2 b.
Proof.
  intros Hab. replace b with (a + (b - a))%Z by lia.
  rewrite powerRZ_2_add, (powerRZ_2_IZR (b - a)) by lia.
  pose proof (powerRZ_2_pos a) as Ha.
  assert (H2 : (2 ^ 1 ≤ 2 ^ (b - a))%Z) by (apply Z.pow_le_mono_r; lia).
  apply IZR_le in H2. change (IZR (2 ^ 1)) with 2 in H2.
  rewrite <- (Rmult_1_r (powerRZ 2 a)) at 1.
  apply Rmult_lt_compat_l; lra.
Qed.

(** A value of at most [2^k] rounds to at most [2^k], one of at least 0
    to at least 0, when its quantum is at most [2^k]. *)
Lemma round32_le_pow (x : R) (k e : Z) :
  Float32.quantum x = Some e → (e ≤ k)%Z → 0 <= x <= powerRZ 2 k →
  let m := Float32.nearest_even (x * powerRZ 2 (- e)) in
  (0 ≤ m ≤ 2 ^ (k - e))%Z ∧ 0 <= IZR m * powerRZ 2 e <= powerRZ 2 k.
Proof.
  intros Hq Hek Hx m.
  pose proof (powerRZ_2_pos e) as He. pose proof (powerRZ_2_pos (- e)) as He'.
  assert (Hm : (0 ≤ m ≤ 2 ^ (k - e))%Z).
  { split.
    - apply nearest_even_ge. apply Rmult_le_pos; lra.
    - apply nearest_even_le. rewrite <- powerRZ_2_IZR by lia.
      replace (k - e)%Z with (k + - e)%Z by lia. rewrite powerRZ_2_add.
      apply Rmult_le_compat_r; lra. }
  split; [done|]. destruct Hm as [Hm0 Hm1].
  apply IZR_le in Hm0, Hm1. rewrite <- powerRZ_2_IZR in Hm1 by lia.
  split; [apply Rmult_le_pos; lra|].
  replace (powerRZ 2 k) with (powerRZ 2 (k - e) * powerRZ 2 e)
    by (rewrite <- powerRZ_2_add; f_equal; lia).
  apply Rmult_le_compat_r; lra.
Qed.

Lemma sigmoid_exact (x : R) : tensor.sigmoid x = 1 / (1 + exp (- x)).
Proof.
  unfold tensor.sigmoid, neg, exp_, Exponential_R. simpl.
  replace (Q2R 1) with 1 by (unfold Q2R; simpl; lra).
  replace (Q2R 0 - x) with (- x) by (unfold Q2R; simpl; lra). done.
Qed.

Lemma sigmoid_exact_bounds (x : R) : 0 < 1 / (1 + exp (- x)) < 1.
Proof.
  pose proof (exp_pos (- x)) as He. split.
  - apply Rdiv_lt_0_compat; lra.
  - apply (Rmult_lt_reg_r (1 + exp (- x))); [lra|].
    unfold Rdiv. rewrite Rmult_assoc, Rinv_l; lra.
Qed.

(** Rounding a value between 0 and [2^k], [k] at most 0. *)
Lemma round32_fraction (x : R) (k : Z) :
  (-125 ≤ k ≤ 0)%Z → 0 <= x <= powerRZ 2 k → x < 1 →
  ∃ y, Float32.round32 x = Some y ∧ 0 <= y <= powerRZ 2 k.
Proof.
  intros Hk Hx Hx1.
  destruct (quantum_from_found x 254 (-149) (-24)) as (e & He & Hle);
    [lia| |].
  { rewrite Rabs_right by lra. by change (powerRZ 2 (-24 + 24)) with 1. }
  assert (Hek : (e ≤ k)%Z).
  { destruct (Z_le_gt_dec e k) as [|Hgt]; [done|].
    apply quantum_from_spec in He as (Hr & _ & Hmin).
    specialize (Hmin ltac:(lia)). rewrite Rabs_right in Hmin by lra.
    assert (powerRZ 2 k < powerRZ 2 (e + 23)); [|lra].
    apply powerRZ_2_lt. lia. }
  unfold Float32.round32. fold (Float32.quantum x) in He.
  unfold Float32.quantum in *. rewrite He. cbn [mbind option_bind].
  rewrite bool_decide_eq_true_2 by lia. eexists. split; [done|].
  apply (round32_le_pow x k e He Hek Hx).
Qed.

Lemma powerRZ_2_24 : powerRZ 2 24 = 16777216.
Proof. by rewrite powerRZ_2_IZR by lia. Qed.

Lemma powerRZ_2_m24 : powerRZ 2 (-24) = / 16777216.
Proof.
  pose proof (powerRZ_2_cancel 24) as Hc. rewrite powerRZ_2_24 in Hc.
  change (- (24))%Z with (-24)%Z in Hc.
  apply (Rmult_eq_reg_r 16777216); [|lra]. rewrite Hc. field.
Qed.

(** From 0.5 to below 1 the quantum is [2^-24]. *)
Lemma quantum_half_one (x : R) :
  / 2 <= x < 1 → Float32.quantum x = Some (-24)%Z.
Proof.
  intros Hx. unfold Float32.quantum.
  destruct (quantum_from_found x 254 (-149) (-24)) as (e & He & Hle);
    [lia| |].
  { rewrite Rabs_right by lra. change (powerRZ 2 (-24 + 24)) with 1. lra. }
  rewrite He. f_equal.
  destruct (Z.eq_dec e (-24)%Z) as [|Hne]; [done|].
  apply quantum_from_spec in He as (_ & Hlt & _).
  rewrite Rabs_right in Hlt by lra.
  assert (powerRZ 2 (e + 24) <= powerRZ 2 (-1)).
  { destruct (Z.eq_dec (e + 24)%Z (-1)%Z) as [->|]; [lra|].
    left. apply powerRZ_2_lt. lia. }
  assert (powerRZ 2 (-1) = / 2) by (simpl; lra). lra.
Qed.

(** Just above 0.5 a real rounds to 0.5, just below 1 to 1, and just
    above 0 to 0. *)
Lemma round32_half (x : R) :
  / 2 <= x < / 2 + / 67108864 → Float32.round32 x = Some (/ 2).
Proof.
  intros Hx. unfold Float32.round32. rewrite quantum_half_one by lra.
  cbn [mbind option_bind]. rewrite bool_decide_eq_true_2 by lia.
  change (- -24)%Z with 24%Z. rewrite powerRZ_2_24, powerRZ_2_m24.
  rewrite (nearest_even_near _ 8388608) by lra. f_equal. lra.
Qed.

Lemma nearest_even_below (v : R) (N : Z) :
  IZR N - / 2 < v <= IZR N → Float32.nearest_even v = N.
Proof.
  intros Hv. destruct (Req_dec v (IZR N)) as [->|Hne].
  - apply nearest_even_near. lra.
  - unfold Float32.nearest_even.
    assert (Hf : Int_part v = (N - 1)%Z).
    { symmetry. apply Int_part_spec. rewrite minus_IZR. lra. }
    rewrite Hf, minus_IZR.
    destruct (Rlt_dec (v - (IZR N - 1)) (/ 2)); [lra|].
    destruct (Rlt_dec (/ 2) (v - (IZR N - 1))); [f_equal; lia|lra].
Qed.

Lemma round32_one (x : R) :
  1 - / 33554432 < x < 1 → Float32.round32 x = Some 1.
Proof.
  intros Hx. unfold Float32.round32. rewrite quantum_half_one by lra.
  cbn [mbind option_bind]. rewrite bool_decide_eq_true_2 by lia.
  change (- -24)%Z with 24%Z. rewrite powerRZ_2_24, powerRZ_2_m24.
  rewrite (nearest_even_below _ 16777216) by lra. f_equal. lra.
Qed.

Lemma round32_zero (x : R) :
  0 <= x < / 2 ^ 150 → Float32.round32 x = Some 0.
Proof.
  intros Hx. unfold Float32.round32, Float32.quantum.
  assert (H149 : powerRZ 2 149 = 2 ^ 149)
    by (symmetry; apply (pow_powerRZ 2 149)).
  assert (Hp : 0 < 2 ^ 149) by (apply pow_lt; lra).
  assert (H150 : 2 ^ 150 = 2 * 2 ^ 149) by reflexivity.
  assert (Hx' : x * 2 ^ 149 < / 2).
  { apply (Rmult_lt_reg_r (/ 2 ^ 149)); [by apply Rinv_0_lt_compat|].
    rewrite Rmult_assoc, Rinv_r by lra. rewrite H150 in Hx.
    rewrite Rinv_mult in Hx. lra. }
  assert (Hq : Float32.quantum_from x (-149) 254 = Some (-149)%Z).
  { change 254%nat with (S 253). cbn [Float32.quantum_from].
    destruct (Rlt_dec (Rabs x) (powerRZ 2 (-149 + 24))) as [|Hn]; [done|].
    destruct Hn. rewrite Rabs_right by lra.
    assert (H125 : powerRZ 2 (-149 + 24) * powerRZ 2 149 = powerRZ 2 24)
      by (by rewrite <- powerRZ_2_add).
    rewrite powerRZ_2_24, H149 in H125.
    pose proof (powerRZ_2_pos (-149 + 24)). nra. }
  rewrite Hq. cbn [mbind option_bind].
  rewrite bool_decide_eq_true_2 by lia.
  change (- -149)%Z with 149%Z. rewrite H149.
  rewrite (nearest_even_near _ 0) by (split; [apply Rmult_le_pos|]; lra).
  f_equal. lra.
Qed.

Lemma exp_INR (n : nat) : exp (INR n) = exp 1 ^ n.
Proof.
  induction n as [|n IH]; [simpl; apply exp_0|].
  rewrite S_INR, exp_plus, IH. simpl. lra.
Qed.

Lemma exp_INR_lower (n : nat) : 2 ^ n <= exp (INR n).
Proof.
  rewrite exp_INR. apply pow_incr.
  pose proof (exp_ineq1 1 ltac:(lra)). lra.
Qed.

Section sigmoid32.
(** The cut-offs of the implementation at hand: some [lo] that is not
    positive and some [hi] from 1 on. *)
Context (lo hi : R) (Hlo : lo <= 0) (Hhi : 1 <= hi).

(** The float32 sigmoid answers a number from 0 to 1, both included. *)
Lemma sigmoid32_range (x : R) :
  ∃ y, Float32.sigmoid lo hi x = Some y ∧ 0 <= y <= 1.
Proof.
  unfold Float32.sigmoid. rewrite sigmoid_exact.
  destruct (Rlt_dec x lo); [exists 0; split; [done|lra]|].
  destruct (Rlt_dec hi x); [exists 1; split; [done|lra]|].
  pose proof (sigmoid_exact_bounds x) as Hs.
  destruct (round32_fraction (1 / (1 + exp (- x))) 0) as (y & Hy & Hr);
    [lia|change (powerRZ 2 0) with 1; lra|lra|].
  exists y. split; [done|]. by change (powerRZ 2 0) with 1 in Hr.
Qed.

(** On an argument that is not positive it answers at most 0.5. *)
Lemma sigmoid32_nonpositive (x : R) :
  x <= 0 → ∃ y, Float32.sigmoid lo hi x = Some y ∧ 0 <= y <= / 2.
Proof.
  intros Hx. unfold Float32.sigmoid. rewrite sigmoid_exact.
  destruct (Rlt_dec x lo); [exists 0; split; [done|lra]|].
  destruct (Rlt_dec hi x); [lra|].
  pose proof (sigmoid_exact_bounds x) as Hs.
  assert (He : 1 <= exp (- x)).
  { destruct (Req_dec x 0) as [->|Hne].
    - rewrite Ropp_0, exp_0. lra.
    - left. rewrite <- exp_0. apply exp_increasing. lra. }
  assert (Hhalf : 1 / (1 + exp (- x)) <= / 2).
  { apply (Rmult_le_reg_r (1 + exp (- x))); [lra|].
    unfold Rdiv. rewrite Rmult_assoc, Rinv_l; lra. }
  assert (Hp : powerRZ 2 (-1) = / 2) by (simpl; lra).
  destruct (round32_fraction (1 / (1 + exp (- x))) (-1)) as (y & Hy & Hr);
    [lia|rewrite Hp; lra|lra|].
  exists y. split; [done|]. by rewrite Hp in Hr.
Qed.

(** The sigmoid of [2^-27], a positive number, is exactly 0.5 in
    float32. *)
Lemma sigmoid32_tiny : Float32.sigmoid lo hi (/ 134217728) = Some (/ 2).
Proof.
  unfold Float32.sigmoid. rewrite sigmoid_exact.
  destruct (Rlt_dec (/ 134217728) lo); [lra|].
  destruct (Rlt_dec hi (/ 134217728)); [lra|].
  apply round32_half.
  pose proof (exp_pos (- / 134217728)) as Hpos.
  assert (Hlt : exp (- / 134217728) < 1).
  { rewrite <- exp_0. apply exp_increasing. lra. }
  assert (Hgt : 1 + - / 134217728 < exp (- / 134217728)).
  { apply exp_ineq1. lra. }
  split.
  - apply (Rmult_le_reg_r (1 + exp (- / 134217728))); [lra|].
    unfold Rdiv. rewrite Rmult_assoc, Rinv_l; lra.
  - apply (Rmult_lt_reg_r (1 + exp (- / 134217728))); [lra|].
    unfold Rdiv. rewrite Rmult_assoc, Rinv_l; lra.
Qed.

(** At 100 it is exactly 1 and at -200 exactly 0, by a cut-off or by
    the rounding. *)
Lemma sigmoid32_saturated :
  Float32.sigmoid lo hi 100 = Some 1 ∧ Float32.sigmoid lo hi (-200) = Some 0.
Proof.
  unfold Float32.sigmoid. rewrite !sigmoid_exact. split.
  - destruct (Rlt_dec 100 lo); [lra|]. destruct (Rlt_dec hi 100); [done|].
    apply round32_one.
    pose proof (sigmoid_exact_bounds 100) as Hs.
    set (e := exp (Ropp 100)) in *.
    assert (Hpos : 0 < e) by apply exp_pos.
    assert (He : e < / 33554432).
    { subst e. rewrite exp_Ropp. apply Rinv_lt_contravar.
      - apply Rmult_lt_0_compat; [lra|apply exp_pos].
      - pose proof (exp_INR_lower 100) as H100.
        replace (INR 100) with 100 in H100 by (simpl; lra).
        assert (H26 : 2 ^ 26 <= 2 ^ 100) by (apply Rle_pow; [lra|lia]).
        assert (H26' : 2 ^ 26 = 67108864) by (simpl; lra).
        lra. }
    split; [|lra].
    apply (Rmult_lt_reg_r (1 + e)); [lra|].
    replace (1 / (1 + e) * (1 + e)) with 1 by (field; lra). lra.
  - destruct (Rlt_dec (-200) lo); [done|].
    destruct (Rlt_dec hi (-200)); [lra|].
    apply round32_zero.
    pose proof (sigmoid_exact_bounds (-200)) as Hs. split; [lra|].
    replace (Ropp (-200)) with 200 by lra.
    pose proof (exp_INR_lower 200) as H200.
    replace (INR 200) with 200 in H200 by (simpl; lra).
    assert (Hp : 0 < 2 ^ 150) by (apply pow_lt; lra).
    assert (H150 : 2 ^ 150 <= 2 ^ 200) by (apply Rle_pow; [lra|lia]).
    unfold Rdiv. rewrite Rmult_1_l. apply Rinv_lt_contravar.
    + apply Rmult_lt_0_compat; lra.
    + lra.
Qed.
End sigmoid32.
End float_facts.

(** ** Activations *)

Section activation_facts.
Local Open Scope R_scope.

Lemma Q2R_zero_literal : Q2R 0.0 = 0.
Proof. unfold Q2R. simpl. lra. Qed.

Lemma rectifier_row_nonneg (c : R) (row : list R) :
  0 <= c →
  Forall (λ a, 0 <= a)
    (zip_with (λ (b : bool) v, if b then v else c) (map (λ v, ltb c v) row) row).
Proof.
  intros Hc. induction row as [|v row IH]; simpl; constructor; [|done].
  destruct (Rlt_dec c v); lra.
Qed.

Lemma rectifier_nonneg (c : R) (m : list (list R)) :
  0 <= c → Forall (Forall (λ a, 0 <= a)) (tensor.switch (tensor.gt m c) m c).
Proof.
  intros Hc. unfold tensor.switch, tensor.gt.
  induction m as [|row m IH]; simpl; constructor; [|done].
  by apply rectifier_row_nonneg.
Qed.

Lemma sigmoid_bounds (v : R) : 0 < tensor.sigmoid v < 1.
Proof.
  unfold tensor.sigmoid, neg, exp_, Exponential_R. simpl.
  replace (Q2R 1) with 1 by (unfold Q2R; simpl; lra).
  pose proof (exp_pos (Q2R 0 - v)) as He.
  split.
  - apply Rdiv_lt_0_compat; lra.
  - apply (Rmult_lt_reg_r (1 + exp (Q2R 0 - v))); [lra|].
    unfold Rdiv. rewrite Rmult_assoc, Rinv_l; lra.
Qed.

(** The counterexample to C8: the float32 sigmoid of the finite input
    100 is exactly 1.0, not below it, and that of -200 is exactly 0.0,
    not above it. *)
Lemma sigmoid_float32_saturates :
  Float32.sigmoid (-88) 15 100 = Some 1
  ∧ Float32.sigmoid (-88) 15 (-200) = Some 0
  ∧ ¬ (∀ v y, Float32.sigmoid (-88) 15 v = Some y → 0 < y < 1).
Proof.
  destruct (sigmoid32_saturated (-88) 15 ltac:(lra) ltac:(lra)) as [H1 H0].
  split; [exact H1|]. split; [exact H0|].
  intros Hall. specialize (Hall 100 1 H1). lra.
Qed.

(** C8, amended.  The rectifier [switch(gt(y, 0.0), y, 0.0)] gives only
    values that are at least 0.  The sigmoid gives only values from 0 to
    1: in exact arithmetic strictly between the two, in float32 with
    both reached, exactly 1.0 at the input 100 and exactly 0.0 at -200,
    whatever the cut-offs of the implementation are (one that is not
    positive, one from 1 on).  So it is, in exact
    arithmetic, with the outputs of the two rectifier layers and of the
    sigmoid layer of the network, whatever the parameters and the
    batch. *)
Theorem activation_ranges (lo hi : R) :
  lo <= 0 → 1 <= hi →
  (∀ m : list (list R),
     Forall (Forall (λ a, 0 <= a)) (tensor.switch (tensor.gt m 0) m 0))
  ∧ (∀ v : R, ∃ y, Float32.sigmoid lo hi v = Some y ∧ 0 <= y <= 1)
  ∧ (Float32.sigmoid lo hi 100 = Some 1
     ∧ Float32.sigmoid lo hi (-200) = Some 0)
  ∧ (∀ v : list R, Forall (λ a, 0 < a < 1) (map tensor.sigmoid v))
  ∧ (∀ floatX z (st : gmap string (list (list R))) i,
       Forall (Forall (λ a, 0 <= a)) (eval (Genre.y1 floatX z) st i)
       ∧ Forall (Forall (λ a, 0 <= a)) (eval (Genre.y2 floatX z) st i)
       ∧ Forall (λ a, 0 < a < 1) (eval (Genre.y floatX z) st i)).
Proof.
  intros Hlo Hhi. split; [|split; [|split; [|split]]].
  - intros m. apply rectifier_nonneg. lra.
  - intros v. by apply sigmoid32_range.
  - by apply sigmoid32_saturated.
  - intros v. apply Forall_fmap, Forall_true. intros a. apply sigmoid_bounds.
  - intros floatX z st i. repeat split.
    + apply rectifier_nonneg. simpl. rewrite Q2R_zero_literal. lra.
    + apply rectifier_nonneg. simpl. rewrite Q2R_zero_literal. lra.
    + apply Forall_fmap, Forall_true. intros a. apply sigmoid_bounds.
Qed.

(** The witness of C8: the cut-offs of Theano's C code, at the
    input 0. *)
Lemma activation_ranges_witness :
  ∃ y, Float32.sigmoid (-88) 15 0 = Some y ∧ 0 <= y <= 1.
Proof.
  apply (activation_ranges (-88) 15); lra.
Defined.
End activation_facts.

(** ** Rounding, clipping and the accuracy *)

Section accuracy_facts.
Local Open Scope R_scope.

Lemma of_Z_R (k : Z) : of_Z (T:=R) k = IZR k.
Proof. unfold of_Z. simpl. unfold Q2R. simpl. lra. Qed.

Lemma Q2R_0 : Q2R 0 = 0.
Proof. unfold Q2R. simpl. lra. Qed.
Lemma Q2R_1 : Q2R 1 = 1.
Proof. unfold Q2R. simpl. lra. Qed.
Lemma Q2R_half : Q2R 0.5 = / 2.
Proof. unfold Q2R. simpl. lra. Qed.

(** [round] on the reals, case by case on the fractional part. *)
Lemma round_R (v : R) :
  let f := Int_part v in
  (v - IZR f < / 2 ∧ np.round v = IZR f)
  ∨ (/ 2 < v - IZR f ∧ np.round v = IZR (f + 1))
  ∨ (v - IZR f = / 2
     ∧ np.round v = IZR (if Z.even f then f else (f + 1)%Z)).
Proof.
  intros f. unfold np.round. rewrite !of_Z_R. simpl. fold f.
  rewrite Q2R_half.
  destruct (Rlt_dec (v - IZR f) (/ 2)) as [Hlt|Hge]; [by left|].
  destruct (Rlt_dec (/ 2) (v - IZR f)) as [Hgt|Hle]; [by right; left|].
  right; right. split; [lra|]. by destruct (Z.even f).
Qed.

(** [round] answers an integer next to its argument. *)
Lemma round_integer (v : R) :
  ∃ k : Z, np.round v = IZR k ∧ (Int_part v ≤ k ≤ Int_part v + 1)%Z.
Proof.
  destruct (round_R v) as [[_ ->]|[[_ ->]|[_ ->]]].
  - eexists; split; [done|lia].
  - eexists; split; [done|lia].
  - eexists; split; [done|]. destruct (Z.even _); lia.
Qed.

Lemma Int_part_bounds (v : R) : IZR (Int_part v) <= v < IZR (Int_part v) + 1.
Proof. destruct (base_Int_part v). lra. Qed.

Lemma round_of_integer (k : Z) : np.round (IZR k) = IZR k.
Proof.
  assert (Hk : Int_part (IZR k) = k) by (symmetry; apply Int_part_spec; lra).
  destruct (round_R (IZR k)) as [[_ ->]|[[Hlt _]|[Heq _]]];
    rewrite ?Hk in *; [done| |]; lra.
Qed.

Lemma clip_R (v : R) :
  np.clip (Q2R 0) (Q2R 1) v = if Rlt_dec v 0 then 0 else if Rlt_dec 1 v then 1 else v.
Proof.
  unfold np.clip. simpl. rewrite Q2R_0, Q2R_1.
  destruct (Rlt_dec v 0); [done|]. by destruct (Rlt_dec 1 v).
Qed.

(** Rounding then clipping leaves 0 or 1. *)
Lemma clip_round_binary (v : R) :
  np.clip (Q2R 0) (Q2R 1) (np.round v) = 0
  ∨ np.clip (Q2R 0) (Q2R 1) (np.round v) = 1.
Proof.
  destruct (round_integer v) as (k & -> & _). rewrite clip_R.
  destruct (Rlt_dec (IZR k) 0) as [|Hk0]; [by left|].
  destruct (Rlt_dec 1 (IZR k)) as [|Hk1]; [by right|].
  apply Rnot_lt_le, le_IZR in Hk0, Hk1.
  assert (k = 0 ∨ k = 1)%Z as [->| ->] by lia; auto.
Qed.


Lemma clip_below (w : R) : w <= 0 → np.clip (Q2R 0) (Q2R 1) w = 0.
Proof.
  intros Hw. rewrite clip_R. destruct (Rlt_dec w 0); [done|].
  destruct (Rlt_dec 1 w); lra.
Qed.

Lemma clip_above (w : R) : 1 <= w → np.clip (Q2R 0) (Q2R 1) w = 1.
Proof.
  intros Hw. rewrite clip_R. destruct (Rlt_dec w 0); [lra|].
  destruct (Rlt_dec 1 w); lra.
Qed.



(** The matches, multiplied by 1.0 and summed, are their number. *)
Lemma vsum_as_float (bs : list bool) :
  vsum (np.as_float (T:=R) bs)
  = INR (sum_list_with (λ b : bool, if b then 1 else 0)%nat bs).
Proof.
  induction bs as [|b bs IH]; [apply Q2R_0|].
  cbn [np.as_float map vsum foldr sum_list_with].
  fold (np.as_float (T:=R) bs). fold (vsum (np.as_float (T:=R) bs)).
  rewrite IH, plus_INR. simpl add. destruct b; simpl INR.
  - rewrite Q2R_1. lra.
  - rewrite Q2R_0. lra.
Qed.

Lemma matches_le_length (bs : list bool) :
  (sum_list_with (λ b : bool, if b then 1 else 0) bs ≤ length bs)%nat.
Proof. induction bs as [|[] bs IH]; simpl; lia. Qed.

(** The line [evaluation] prints and the store it leaves. *)
Lemma evaluation_report {T} `{Scalar T} `{Exponential T} floatX
    (z : string → nat → nat → T) (ds : Genre.DataServer.t T) n i
    (s : Genre.state) :
  let predictions :=
    eval (Genre.y floatX z) (Genre.store s)
         (nd_data (Genre.DataServer.test ds), []) in
  let targets := nd_data (Genre.DataServer.test_targets ds) in
  Genre.evaluation floatX z ds n i s
  = Genre.State (Genre.store s)
      (Genre.stdout s ++
        [Genre.Report (i + 1) n
           ((λ p, mul p (of_Q 100)) <$>
              Genre.performance
                (map (np.clip (of_Q 0) (of_Q 1))
                     (map np.round predictions)) targets)]).
Proof. reflexivity. Qed.

(** *** Roundings to the nearest integer *)





Lemma round_of_half : np.round (/ 2) = 0.
Proof.
  assert (Hf : Int_part (/ 2) = 0%Z) by (symmetry; apply Int_part_spec; lra).
  destruct (round_R (/ 2)) as [[Hr _]|[[Hr _]|[_ Hr]]]; rewrite Hf in *;
    [lra|lra|exact Hr].
Qed.











(** The counterexample to C10: with no held-out example the accuracy is
    no number between 0 and 1: the division is 0/0, and the evaluation
    prints nan. *)
Lemma accuracy_of_no_example :
  Genre.performance (map (np.clip (Q2R 0) (Q2R 1)) (map np.round [])) []
  = None
  ∧ ¬ (∃ a : R,
         Genre.performance
           (map (np.clip (Q2R 0) (Q2R 1)) (map np.round [])) [] = Some a
         ∧ 0 <= a <= 1).
Proof.
  assert (Hnone : Genre.performance (T:=R)
            (map (np.clip (Q2R 0) (Q2R 1)) (map np.round [])) [] = None).
  { unfold Genre.performance, float_div. rewrite of_nat_R. simpl eqb.
    rewrite Q2R_0. cbn [length INR].
    destruct (Req_dec_T 0 0) as [|Hn]; [done|by destruct Hn]. }
  split; [exact Hnone|]. intros (a & Ha & _). by rewrite Hnone in Ha.
Qed.

(** C10, amended.  Rounding and then clipping to [0,1] leaves only 0.0
    and 1.0; with at least one held-out example, and one prediction for
    each, the accuracy, the number of matches over the number of
    held-out examples, lies between 0 and 1, and the printed percentage
    between 0 and 100. *)
Theorem accuracy_range (predictions targets : list R) :
  Forall (λ v, v = 0 ∨ v = 1)
    (map (np.clip (Q2R 0) (Q2R 1)) (map np.round predictions))
  ∧ (length predictions = length targets → targets ≠ [] →
     ∃ a, Genre.performance
            (map (np.clip (Q2R 0) (Q2R 1)) (map np.round predictions))
            targets = Some a
          ∧ 0 <= a <= 1 ∧ 0 <= a * Q2R 100 <= 100).
Proof.
  split.
  - rewrite <- list_fmap_compose. apply Forall_fmap, Forall_true.
    intros v. apply clip_round_binary.
  - intros Hlen Hne. unfold Genre.performance.
    set (bs := np.equal _ targets).
    assert (Hn : (0 < length targets)%nat)
      by (destruct targets; [done|simpl; lia]).
    assert (Hbs : (sum_list_with (λ b : bool, if b then 1 else 0) bs
                   ≤ length targets)%nat).
    { subst bs. unfold np.equal.
      rewrite bool_decide_eq_true_2 by (by rewrite !length_fmap).
      etrans; [apply matches_le_length|]. rewrite length_zip_with. lia. }
    rewrite vsum_as_float. unfold float_div. rewrite of_nat_R. simpl eqb.
    rewrite Q2R_0. destruct (Req_dec_T (INR (length targets)) 0) as [Heq|_].
    { apply (INR_eq _ 0) in Heq. lia. }
    eexists. split; [done|].
    apply le_INR in Hbs. apply lt_INR in Hn. simpl INR in Hn.
    set (m := INR (sum_list_with _ bs)) in *.
    assert (0 <= m) by (subst m; apply pos_INR).
    set (N := INR (length targets)) in *.
    assert (Ha : 0 <= m / N <= 1).
    { split.
      - apply Rmult_le_pos; [done|]. left. by apply Rinv_0_lt_compat.
      - apply (Rmult_le_reg_r N); [done|]. unfold Rdiv.
        rewrite Rmult_assoc, Rinv_l; lra. }
    split; [exact Ha|].
    replace (Q2R 100) with 100 by (unfold Q2R; simpl; lra).
    change (0 <= m / N * 100 <= 100). lra.
Qed.


(** The witness of C10: one prediction, one label. *)
Lemma accuracy_range_witness :
  ∃ a, Genre.performance
         (map (np.clip (Q2R 0) (Q2R 1)) (map np.round [7 / 10])) [1]
       = Some a
       ∧ 0 <= a <= 1 ∧ 0 <= a * Q2R 100 <= 100.
Proof.
  apply (proj2 (accuracy_range [7 / 10] [1])); [reflexivity|discriminate].
Defined.
End accuracy_facts.

(** ** Distributions *)

Lemma dbind_cons {A B} (ap : A * Qc) (d : dist A) (f : A → dist B) :
  dbind (ap :: d) f
  = map (λ bq, (bq.1, (ap.2 * bq.2)%Qc)) (f ap.1) ++ dbind d f.
Proof. reflexivity. Qed.

Lemma dbind_app {A B} (d1 d2 : dist A) (f : A → dist B) :
  dbind (d1 ++ d2) f = dbind d1 f ++ dbind d2 f.
Proof. unfold dbind. by rewrite map_app, concat_app. Qed.

Lemma dbind_dret_l {A B} (a : A) (f : A → dist B) : dbind (dret a) f = f a.
Proof.
  unfold dbind, dret. simpl. rewrite app_nil_r.
  rewrite <- (map_id (f a)) at 2. apply map_ext. intros [b q]. simpl.
  by rewrite Qcmult_1_l.
Qed.

Lemma dbind_dret_r {A B} (d : dist A) (h : A → B) :
  dbind d (λ a, dret (h a)) = dmap h d.
Proof.
  induction d as [|[a p] d IH]; [done|].
  rewrite dbind_cons, IH. simpl. by rewrite Qcmult_1_r.
Qed.

Lemma dbind_ext {A B} (d : dist A) (f f' : A → dist B) :
  (∀ a, f a = f' a) → dbind d f = dbind d f'.
Proof.
  intros Hf. unfold dbind. f_equal. apply map_ext. intros ap. by rewrite Hf.
Qed.

Lemma dbind_scale {B C} (p : Qc) (d : dist B) (g : B → dist C) :
  dbind (map (λ bq, (bq.1, (p * bq.2)%Qc)) d) g
  = map (λ cr, (cr.1, (p * cr.2)%Qc)) (dbind d g).
Proof.
  induction d as [|[b q] d IH]; [done|].
  simpl map at 1. rewrite !dbind_cons, map_app, IH. f_equal. simpl.
  rewrite map_map. apply map_ext. intros [c r]. simpl.
  by rewrite Qcmult_assoc.
Qed.

Lemma dbind_assoc {A B C} (d : dist A) (f : A → dist B) (g : B → dist C) :
  dbind (dbind d f) g = dbind d (λ a, dbind (f a) g).
Proof.
  induction d as [|[a p] d IH]; [done|].
  rewrite !dbind_cons, dbind_app, IH. f_equal. apply dbind_scale.
Qed.

Lemma dmap_dbind {A B C} (d : dist A) (f : A → dist B) (h : B → C) :
  dmap h (dbind d f) = dbind d (λ a, dmap h (f a)).
Proof.
  rewrite <- dbind_dret_r, dbind_assoc. apply dbind_ext. intros a.
  apply dbind_dret_r.
Qed.

Lemma dmap_dmap {A B C} (d : dist A) (h : A → B) (h' : B → C) :
  dmap h' (dmap h d) = dmap (λ a, h' (h a)) d.
Proof. unfold dmap. rewrite map_map. done. Qed.

Lemma dmap_ext {A B} (d : dist A) (h h' : A → B) :
  (∀ a, h a = h' a) → dmap h d = dmap h' d.
Proof. intros Hh. apply map_ext. intros ap. by rewrite Hh. Qed.


(** ** The data server *)

Section sampler_facts.
Context {T : Type} `{Scalar T}.
Import Genre.DataServer.

Lemma independent_uniform_S (n k : nat) :
  independent_uniform n (S k)
  = dbind (randrange n) (λ i, dmap (cons i) (independent_uniform n k)).
Proof.
  unfold independent_uniform, randrange. simpl sequences.
  induction (seq 0 n) as [|i l IH]; [done|].
  cbn [mbind list_bind map]. rewrite dbind_cons, map_app.
  f_equal; [|exact IH]. unfold dmap. simpl.
  rewrite !map_map. apply map_ext. done.
Qed.

(** The loop of [get_train_sample], started at turn [j] with [k] turns to
    go: the first [j] rows and labels stay, the others come from the
    draws. *)
Lemma for_each_sample (self : t T) (k : nat) :
  let n := length (nd_data (train self)) in
  ∀ (j : nat) (inputs : list (list T)) (targets : list T),
    length inputs = (j + k)%nat → length targets = (j + k)%nat →
    drop j targets = replicate k (of_Q 0) →
    for_each (seq j k) (sample_step self) (inputs, targets)
    = dmap (λ idxs,
        (take j inputs ++ map (λ i, nd_data (train self) !!! i) idxs,
         take j targets ++ map (halves_label n) idxs))
        (independent_uniform n k).
Proof.
  intros n. induction k as [|k IH]; intros j inputs targets Hi Ht Hz.
  - simpl. unfold dret. rewrite !app_nil_r, !take_ge by lia. done.
  - cbn [seq for_each]. unfold sample_step at 1.
    rewrite dbind_assoc, independent_uniform_S, dmap_dbind.
    apply dbind_ext. intros idx. rewrite dbind_dret_l.
    assert (Hj : targets !! j = Some (of_Q 0)).
    { rewrite <- (Nat.add_0_r j), <- lookup_drop, Hz. done. }
    rewrite IH.
    + rewrite dmap_dmap. apply dmap_ext. intros idxs. cbn [map]. f_equal.
      * rewrite (take_S_r _ _ (nd_data (train self) !!! idx))
          by (apply list_lookup_insert_eq; lia).
        rewrite take_insert_ge, <- app_assoc by lia. done.
      * unfold halves_label. fold n.
        case_bool_decide; case_bool_decide; try lia.
        -- rewrite (take_S_r _ _ (of_Q 1))
             by (apply list_lookup_insert_eq; lia).
           rewrite take_insert_ge, <- app_assoc by lia. done.
        -- by rewrite (take_S_r _ _ (of_Q 0)), <- app_assoc.
    + rewrite length_insert. lia.
    + case_bool_decide; rewrite ?length_insert; lia.
    + assert (Hd : drop (S j) targets = replicate k (of_Q 0)).
      { replace (S j) with (j + 1)%nat by lia.
        rewrite <- (drop_drop _ 1 j), Hz. done. }
      case_bool_decide; [|done]. by rewrite drop_insert_lt by lia.
Qed.

(** [get_train_sample] is the rows and the labels of independent uniform
    draws. *)
Lemma get_train_sample_draws (junk : T) (self : t T) (batch_size : nat) :
  let n := length (nd_data (train self)) in
  get_train_sample junk self batch_size
  = dmap (λ idxs,
      (Ndarray float32 (map (λ i, nd_data (train self) !!! i) idxs),
       Ndarray float32 (map (halves_label n) idxs)))
      (independent_uniform n batch_size).
Proof.
  intros n. unfold get_train_sample.
  rewrite (dbind_dret_r _ (λ arrays, (_, _))).
  rewrite (for_each_sample self batch_size 0); simpl;
    rewrite ?length_replicate; try done.
  by rewrite dmap_dmap.
Qed.

(** The sequences are the lists of [k] indices below [n], each once. *)
Lemma elem_of_sequences (n k : nat) (idxs : list nat) :
  idxs ∈ sequences n k ↔ length idxs = k ∧ Forall (λ i, i < n)%nat idxs.
Proof.
  revert idxs. induction k as [|k IH]; intros idxs; simpl.
  - rewrite list_elem_of_singleton. split.
    + intros ->. by split.
    + intros [Hl _]. by destruct idxs.
  - rewrite list_elem_of_bind. split.
    + intros (i & Hin & Hi). apply list_elem_of_fmap in Hin as (s & -> & Hs).
      apply IH in Hs as [Hl Hf]. apply elem_of_seq in Hi.
      split; [simpl; lia|]. constructor; [lia|done].
    + intros [Hl Hf]. destruct idxs as [|i idxs]; [done|].
      apply Forall_cons in Hf as [Hi Hf]. exists i. split.
      * apply list_elem_of_fmap. exists idxs. split; [done|].
        apply IH. split; [simpl in Hl; lia|done].
      * apply elem_of_seq. lia.
Qed.

Lemma NoDup_sequences (n k : nat) : NoDup (sequences n k).
Proof.
  induction k as [|k IH]; simpl.
  - apply NoDup_singleton.
  - apply NoDup_bind.
    + intros i1 i2 s _ _ (s1 & -> & _)%list_elem_of_fmap
        (s2 & Heq & _)%list_elem_of_fmap. congruence.
    + intros i _. apply NoDup_fmap_2; [|done]. intros ??. congruence.
    + apply NoDup_seq.
Qed.

(** In a list of distinct outcomes of one weight, an outcome has that
    weight. *)
Lemma pr_point `{EqDecision A} (l : list A) (w : Qc) (a : A) :
  NoDup l → a ∈ l →
  pr (map (λ s, (s, w)) l) (λ s, bool_decide (s = a)) = w.
Proof.
  assert (Hout : ∀ l', a ∉ l' →
    pr (map (λ s, (s, w)) l') (λ s, bool_decide (s = a)) = 0%Qc).
  { induction l' as [|b l' IH']; [done|]. intros [Hb Hl']%not_elem_of_cons.
    simpl. rewrite bool_decide_eq_false_2 by congruence. by apply IH'. }
  induction l as [|b l IH]; [by intros _ ?%elem_of_nil|].
  intros [Hb Hl]%NoDup_cons Hin. simpl. case_bool_decide as Hab.
  - subst b. rewrite Hout by done. apply Qcplus_0_r.
  - apply IH; [done|]. apply elem_of_cons in Hin as [?|?]; congruence.
Qed.

(** Every sequence of valid indices, with or without repeated indices,
    has probability [(1/n)^batch_size]. *)
Lemma pr_independent_uniform (n batch_size : nat) (idxs : list nat) :
  length idxs = batch_size → Forall (λ i, i < n)%nat idxs →
  pr (independent_uniform n batch_size) (λ s, bool_decide (s = idxs))
  = Qcpower (1 / Qc_of_nat n)%Qc batch_size.
Proof.
  intros Hl Hf. apply pr_point; [apply NoDup_sequences|].
  by apply elem_of_sequences.
Qed.

(** The labels [__init__] gives the held-out examples. *)
Lemma assign_from_halves (n : nat) :
  np.assign_from (n / 2) (of_Q 1) (replicate n (of_Q 0))
  = map (halves_label n) (seq 0 n).
Proof.
  unfold np.assign_from, halves_label.
  assert (Hh : (n / 2 ≤ n)%nat) by (apply Nat.Div0.div_le_upper_bound; lia).
  set (h := (n / 2)%nat) in *.
  rewrite take_replicate, length_replicate, Nat.min_l by done.
  replace (seq 0 n) with (seq 0 (h + (n - h))) by (f_equal; lia).
  rewrite seq_app, map_app. f_equal.
  - apply list_eq. intros i. rewrite list_lookup_fmap.
    destruct (decide (i < h)%nat) as [Hi|Hi].
    + rewrite lookup_replicate_2, lookup_seq_lt by done. cbn [fmap option_fmap option_map].
      by rewrite bool_decide_eq_true_2 by lia.
    + rewrite lookup_seq_ge by lia. apply lookup_replicate_None. lia.
  - apply list_eq. intros i. rewrite list_lookup_fmap.
    destruct (decide (i < n - h)%nat) as [Hi|Hi].
    + rewrite lookup_replicate_2, lookup_seq_lt by done. cbn [fmap option_fmap option_map].
      by rewrite bool_decide_eq_false_2 by lia.
    + rewrite lookup_seq_ge by lia. apply lookup_replicate_None. lia.
Qed.

(** C5.  [get_train_sample] is [batch_size] independent uniform draws,
    with replacement, of indices of the training collection: its batch
    is the rows at the drawn indices with the label 0.0 for an index in
    the first half of the collection and 1.0 otherwise, and every
    sequence of [batch_size] indices has probability
    [(1/n)^batch_size].  [get_test] is no draw: it returns the whole
    held-out collection with the labels of the same rule. *)
Theorem data_server_sampling (junk : T) (self : t T) (batch_size : nat)
    (idxs : list nat) :
  let n := length (nd_data (train self)) in
  length idxs = batch_size → Forall (λ i, i < n)%nat idxs →
  get_train_sample junk self batch_size
  = dmap (λ idxs,
      (Ndarray float32 (map (λ i, nd_data (train self) !!! i) idxs),
       Ndarray float32 (map (halves_label n) idxs)))
      (independent_uniform n batch_size)
  ∧ pr (independent_uniform n batch_size) (λ s, bool_decide (s = idxs))
    = Qcpower (1 / Qc_of_nat n)%Qc batch_size
  ∧ get_test self = (test self, test_targets self)
  ∧ (∀ data_train data_test,
       init data_train data_test = Some self →
       let m := length (nd_data data_test) in
       test self = astype float32 data_test
       ∧ test_targets self
         = Ndarray float32 (map (halves_label m) (seq 0 m))).
Proof.
  intros n Hl Hf. split; [apply get_train_sample_draws|].
  split; [by apply pr_independent_uniform|]. split; [done|].
  intros data_train data_test Hinit m. unfold init in Hinit.
  case_bool_decide; [|done]. injection Hinit as <-. simpl. split; [done|].
  f_equal. rewrite length_replicate. apply assign_from_halves.
Qed.

End sampler_facts.

(** The witness of C5: two draws from the two training examples of a
    loaded file, the second example first, and the labels of its three
    held-out examples. *)
Lemma data_server_sampling_witness :
  pr (independent_uniform 2 2) (λ s, bool_decide (s = [1; 0]%nat))
  = Qcpower (1 / Qc_of_nat 2)%Qc 2
  ∧ Genre.DataServer.test_targets Examples.loaded_server
    = Ndarray float32 (map (halves_label 3) (seq 0 3)).
Proof.
  pose proof (data_server_sampling (T:=Q) 0%Q Examples.loaded_server 2
                [1; 0]%nat eq_refl ltac:(repeat constructor))
    as (_ & Hpr & _ & Hinit).
  split; [exact Hpr|].
  apply (Hinit Examples.file_train Examples.file_test). reflexivity.
Defined.

(** ** The training loop *)

Lemma Forall_dbind {A B} (P : B → Prop) (d : dist A) (f : A → dist B) :
  (∀ a, Forall (λ bq, P bq.1) (f a)) → Forall (λ bq, P bq.1) (dbind d f).
Proof.
  intros Hf. induction d as [|ap d IH]; [constructor|].
  rewrite dbind_cons. apply Forall_app. split; [|done].
  apply Forall_fmap. exact (Hf ap.1).
Qed.


Lemma pr_app {A} (d1 d2 : dist A) (event : A → bool) :
  pr (d1 ++ d2) event = (pr d1 event + pr d2 event)%Qc.
Proof.
  induction d1 as [|[a p] d1 IH]; simpl; [ring|].
  rewrite IH. destruct (event a); ring.
Qed.

Lemma pr_scale {A} (p : Qc) (d : dist A) (event : A → bool) :
  pr (map (λ bq, (bq.1, (p * bq.2)%Qc)) d) event = (p * pr d event)%Qc.
Proof.
  induction d as [|[a q] d IH]; simpl; [ring|].
  rewrite IH. destruct (event a); ring.
Qed.

(** The whole probability is kept by a bind whose continuations keep it. *)
Lemma pr_dbind_total {A B} (d : dist A) (f : A → dist B) :
  (∀ a, pr (f a) (λ _, true) = 1%Qc) →
  pr (dbind d f) (λ _, true) = pr d (λ _, true).
Proof.
  intros Hf. induction d as [|[a p] d IH]; [done|].
  rewrite dbind_cons, pr_app, pr_scale, IH, Hf. simpl. ring.
Qed.

Lemma pr_dmap_total {A B} (d : dist A) (h : A → B) :
  pr (dmap h d) (λ _, true) = pr d (λ _, true).
Proof. induction d as [|[a p] d IH]; [done|]. simpl. by rewrite IH. Qed.

Lemma Qc_of_nat_S (n : nat) : Qc_of_nat (S n) = (1 + Qc_of_nat n)%Qc.
Proof.
  apply Qc_is_canon. unfold Qc_of_nat. simpl.
  rewrite !Qred_correct. unfold Qeq. simpl. lia.
Qed.

Lemma Qc_of_nat_pos (n : nat) : (0 < n)%nat → Qc_of_nat n ≠ 0%Qc.
Proof.
  intros Hn Heq. unfold Qc_of_nat in Heq.
  change 0%Qc with (Q2Qc 0) in Heq. apply Q2Qc_eq_iff in Heq.
  unfold Qeq in Heq. simpl in Heq. lia.
Qed.

Lemma pr_randrange_total (n : nat) :
  (0 < n)%nat → pr (randrange n) (λ _, true) = 1%Qc.
Proof.
  intros Hn. unfold randrange.
  assert (Hsum : ∀ (l : list nat) (q : Qc),
    pr (map (λ i, (i, q)) l) (λ _, true) = (Qc_of_nat (length l) * q)%Qc).
  { induction l as [|i l IH]; intros q.
    - change (0 = 0 * q)%Qc. ring.
    - cbn [map pr foldr length].
      fold (pr (map (λ i, (i, q)) l) (λ _, true)).
      rewrite IH, Qc_of_nat_S. cbn [snd]. ring. }
  rewrite Hsum, length_seq. field. by apply Qc_of_nat_pos.
Qed.

Lemma pr_independent_uniform_total (n k : nat) :
  (0 < n)%nat → pr (independent_uniform n k) (λ _, true) = 1%Qc.
Proof.
  intros Hn. induction k as [|k IH]; [done|].
  rewrite independent_uniform_S, pr_dbind_total.
  - by apply pr_randrange_total.
  - intros i. by rewrite pr_dmap_total.
Qed.



Section loop_facts.
Context {T : Type} `{Scalar T} `{Exponential T}.
Context (floatX : dtype) (z : string → nat → nat → T) (junk : T).
Context (grad : Genre.differentiation T).
Context (ds : Genre.DataServer.t T) (num_updates eval_step batch_size : nat).
Import Genre.

Local Abbreviation body :=
  (loop_body floatX z junk grad ds num_updates eval_step batch_size).








End loop_facts.



(** ** Element types *)

Section dtype_facts.
Context {T : Type} `{Scalar T} `{Exponential T}.
Context (z : string → nat → nat → T).
Context (grad : Genre.differentiation T).

(** [init_values]: zero plus a tenth of each standard normal variate, as
    a [float32] array. *)
Lemma init_values_spec (shape : nat * nat) (zs : nat → nat → T) :
  nd_dtype (Genre.init_values shape zs) = float32
  ∧ nd_data (Genre.init_values shape zs)
    = map (λ r, map (λ c, add (of_Q 0) (mul (of_Q 0.1) (zs r c)))
                    (seq 0 shape.2)) (seq 0 shape.1).
Proof. done. Qed.

Lemma params_float32 : Forall (λ p, sv_dtype p = float32) (Genre.params z).
Proof. repeat constructor. Qed.

Lemma initial_store_lookup :
  Genre.initial_store z
  = list_to_map
      [("W1", nd_data (Genre.init_values (Genre.SAMPLE_WIDTH, 256) (z "W1")));
       ("B1", nd_data (Genre.init_values (1, 256) (z "B1")));
       ("W2", nd_data (Genre.init_values (256, 64) (z "W2")));
       ("B2", nd_data (Genre.init_values (1, 64) (z "B2")));
       ("W3", nd_data (Genre.init_values (64, 1) (z "W3")));
       ("B3", nd_data (Genre.init_values (1, 1) (z "B3")))].
Proof. reflexivity. Qed.

(** An accepted list of updates writes [float32] values only. *)
Lemma accepted_updates_float32 (floatX : dtype) :
  updates_accepted (Genre.updates floatX z grad) = true →
  Forall (λ u, sv_dtype u.1 = float32 ∧ dtype_of u.2 = float32)
         (Genre.updates floatX z grad).
Proof.
  unfold updates_accepted. intros [Hty _]%andb_prop.
  rewrite forallb_forall in Hty. apply Forall_forall. intros [p e] Hin.
  specialize (Hty (p, e) ltac:(by apply list_elem_of_In)).
  apply bool_decide_eq_true_1 in Hty. cbn [fst snd] in *.
  assert (Hp : sv_dtype p = float32); [|by rewrite <- Hty].
  rewrite updates_unfold in Hin. apply list_elem_of_fmap in Hin as ([i q] & Heq & Hin).
  cbn [fst snd] in Heq. injection Heq as -> _.
  apply elem_of_zip_r in Hin.
  by apply (proj1 (Forall_forall _ _) params_float32).
Qed.

(** With [floatX = float32] and a gradient of the element type of its
    parameter, Theano accepts the updates. *)
Lemma train_accepted :
  map dtype_of (Genre.gradients float32 z grad) = map sv_dtype (Genre.params z) →
  Genre.train_compiled float32 z grad = Some (Genre.train float32 z grad).
Proof.
  intros Hg. unfold Genre.train_compiled, function.
  replace (updates_accepted _) with true; [done|]. symmetry.
  unfold updates_accepted. apply andb_true_intro. split.
  - rewrite updates_unfold. apply forallb_forall. intros [p e] Hin.
    apply list_elem_of_In, list_elem_of_fmap in Hin as ([i q] & Heq & Hin).
    cbn [fst snd] in Heq. injection Heq as -> ->.
    apply bool_decide_eq_true_2. cbn [fst snd].
    apply list_elem_of_lookup in Hin as [j Hj].
    apply lookup_zip_with_Some in Hj as (i' & q' & Heq & Hi & Hq).
    injection Heq as <- <-. apply lookup_seq in Hi as [-> Hlt].
    assert (Hd : dtype_of (Genre.gradients float32 z grad !!! j) = sv_dtype q).
    { apply (f_equal (λ l, l !! j)) in Hg.
      rewrite !list_lookup_fmap, Hq in Hg.
      destruct (Genre.gradients float32 z grad !! j) as [g|] eqn:Hgj; [|done].
      rewrite (list_lookup_total_correct _ _ _ Hgj). simpl in Hg. congruence. }
    cbn. rewrite Hd.
    rewrite (proj1 (Forall_forall _ _) params_float32 q)
      by (by eapply list_elem_of_lookup_2).
    done.
  - rewrite updates_names. done.
Qed.
End dtype_facts.

(** The counterexample to C9: the parameter of the trivial example comes
    from [numpy.asarray] of Python floats and is a [float64] array, not a
    32-bit one. *)
Lemma trivial_parameter_not_float32 :
  nd_dtype (Trivial.W_value (T:=Q)) = float64
  ∧ sv_dtype (Trivial.W (T:=Q)) ≠ float32.
Proof. split; [reflexivity|discriminate]. Qed.

(** C9, amended.  The six parameters of the perceptron are [float32]
    arrays, created by [init_values] from normal variates of mean 0 and
    scale 0.1 and cast to [float32]; every update Theano accepts for them
    is a [float32] expression, and with [floatX = float32] the updates
    are accepted, so their element type stays [float32].  The parameter
    [W] of the trivial example is created from the constants 0.2 and 0.7
    as a [float64] array; its update is a [float64] expression, accepted
    under every [floatX], so its element type stays [float64]. *)
Theorem parameter_dtypes {T : Type} `{Scalar T} `{Exponential T}
    (floatX : dtype) (z : string → nat → nat → T)
    (grad : Genre.differentiation T) :
  (Forall (λ p, sv_dtype p = float32) (Genre.params z)
   ∧ (∀ shape zs,
        nd_dtype (Genre.init_values shape zs) = float32
        ∧ nd_data (Genre.init_values shape zs)
          = map (λ r, map (λ c, add (of_Q 0) (mul (of_Q 0.1) (zs r c)))
                          (seq 0 shape.2)) (seq 0 shape.1))
   ∧ Genre.initial_store z
     = list_to_map
         [("W1", nd_data (Genre.init_values (Genre.SAMPLE_WIDTH, 256) (z "W1")));
          ("B1", nd_data (Genre.init_values (1, 256) (z "B1")));
          ("W2", nd_data (Genre.init_values (256, 64) (z "W2")));
          ("B2", nd_data (Genre.init_values (1, 64) (z "B2")));
          ("W3", nd_data (Genre.init_values (64, 1) (z "W3")));
          ("B3", nd_data (Genre.init_values (1, 1) (z "B3")))]
   ∧ (Genre.train_compiled floatX z grad ≠ None →
      Forall (λ u, sv_dtype u.1 = float32 ∧ dtype_of u.2 = float32)
             (Genre.updates floatX z grad))
   ∧ (map dtype_of (Genre.gradients float32 z grad)
        = map sv_dtype (Genre.params z) →
      Genre.train_compiled float32 z grad = Some (Genre.train float32 z grad)))
  ∧ (sv_dtype (Trivial.W (T:=T)) = float64
     ∧ Trivial.initial_store (T:=T) = {["W" := [of_Q 0.2; of_Q 0.7]]}
     ∧ dtype_of (Trivial.W_updated (T:=T) floatX) = float64
     ∧ Trivial.f_compiled (T:=T) floatX = Some (Trivial.f floatX)).
Proof.
  split; [split; [|split; [|split; [|split]]]|].
  - apply params_float32.
  - intros shape zs. apply init_values_spec.
  - apply initial_store_lookup.
  - intros Hc. apply accepted_updates_float32.
    unfold Genre.train_compiled, function in Hc.
    by destruct (updates_accepted _).
  - apply train_accepted.
  - by destruct floatX.
Qed.

(** The witness of C9: [floatX = float32] and a gradient provider that
    answers [float32] expressions. *)
Lemma parameter_dtypes_witness :
  Genre.train_compiled float32 Examples.no_variates Examples.constant_grad
  = Some (Genre.train float32 Examples.no_variates Examples.constant_grad)
  ∧ Forall (λ u, sv_dtype u.1 = float32 ∧ dtype_of u.2 = float32)
      (Genre.updates float32 Examples.no_variates Examples.constant_grad).
Proof.
  pose proof (parameter_dtypes float32 Examples.no_variates
                Examples.constant_grad) as [(_ & _ & _ & Hkept & Hacc) _].
  specialize (Hacc eq_refl). split; [exact Hacc|].
  apply Hkept. by rewrite Hacc.
Defined.

(** Under [floatX = float64] the learning rate is a [float64] constant,
    the updates are [float64] expressions, and Theano refuses them. *)
Lemma train_refused_float64 {T : Type} `{Scalar T} `{Exponential T}
    (z : string → nat → nat → T) (grad : Genre.differentiation T) :
  Genre.train_compiled float64 z grad = None.
Proof.
  unfold Genre.train_compiled, function, updates_accepted.
  rewrite updates_unfold. cbn [Genre.params length seq zip zip_with map forallb].
  cbn [fst snd Genre.updated_param lift2 dtype_of sv_dtype Genre.W1
       Genre.W1_shared shared Genre.init_values astype nd_dtype read].
  by destruct (dtype_of (Genre.gradients float64 z grad !!! 0%nat)).
Qed.

(** ** The definitions at work, on exact rationals *)

Example round_ties_to_even :
  map (np.round (T:=Q)) [0.5; 1.5; 2.5; -0.5; 0.49; 0.51; -1.5]%Q
  = [0; 2; 2; 0; 0; 1; -2]%Q.
Proof. reflexivity. Qed.

Example round_then_clip :
  map (np.clip (T:=Q) 0%Q 1%Q) (map np.round [0.2; 0.7; 1.4; -3; 0.5]%Q)
  = [0; 1; 1; 0; 0]%Q.
Proof. reflexivity. Qed.

Example performance_three_of_four :
  Genre.performance (T:=Q) [0; 1; 1; 0]%Q [0; 1; 1; 1]%Q = Some (3 # 4)%Q.
Proof. reflexivity. Qed.

Example performance_no_example : Genre.performance (T:=Q) [] [] = None.
Proof. reflexivity. Qed.

Example mean_of_empty_batch : tensor.mean (T:=Q) [] = None.
Proof. reflexivity. Qed.

Example labels_of_five_held_out_examples :
  let row := replicate Genre.SAMPLE_WIDTH 0%Q in
  nd_data ∘ Genre.DataServer.test_targets
    <$> Genre.DataServer.init (Ndarray float64 [row; row])
                              (Ndarray float64 [row; row; row; row; row])
  = Some [0; 0; 1; 1; 1]%Q.
Proof. vm_compute. reflexivity. Qed.

Example one_draw_from_two_examples :
  map (λ ap, (nd_data ap.1.1, nd_data ap.1.2, this ap.2))
      (Genre.DataServer.get_train_sample 0%Q Examples.small_server_Q 1)
  = [([[0]], [0], 1 # 2); ([[1]], [1], 1 # 2)]%Q.
Proof. vm_compute. reflexivity. Qed.

Example two_draws_with_replacement :
  map (λ ap, (nd_data ap.1.2, this ap.2))
      (Genre.DataServer.get_train_sample 0%Q Examples.small_server_Q 2)
  = [([0; 0], 1 # 4); ([0; 1], 1 # 4); ([1; 0], 1 # 4); ([1; 1], 1 # 4)]%Q.
Proof. vm_compute. reflexivity. Qed.

Example learning_rate_literals :
  autocast_float float32 Genre.LEARNING_RATE = float32
  ∧ autocast_float float64 Genre.LEARNING_RATE = float64
  ∧ autocast_float float64 0.0 = float32.
Proof. repeat split. Qed.


(** * Further properties of the notebooks *)

(** ** Notebook 03: one call of [f] *)

Section trivial_step_facts.
Local Open Scope R_scope.
Import Trivial.

(** The output after an update of the shape [w - c * (g * x)]. *)
Lemma vsum_after_update (xs w : list R) (c g : R) :
  length xs = length w →
  vsum (vmap2 mul xs (vmap2 sub w (map (mul c) (map (λ xi, g * xi) xs))))
  = vsum (vmap2 mul xs w) - c * g * vsum (vmap2 mul xs xs).
Proof.
  revert w. induction xs as [|a xs IH]; intros [|b w] Hl; simplify_eq/=.
  - lra.
  - rewrite (IH w) by done. lra.
Qed.

Lemma f_store (floatX : dtype) (st : gmap string (list R)) xs t :
  (f floatX st (xs, t)).2 !!! "W"
  = vmap2 sub (st !!! "W")
      (map (mul (Q2R LEARNING_RATE)) (grad_cost_W xs t (st !!! "W"))).
Proof. unfold f, call, write_updates. simpl. by rewrite lookup_total_insert_eq. Qed.

(** X1.  One call of [f] multiplies the error [target - y] by
    [1 - 2 * LEARNING_RATE * (x . x)]: with the notebook's x = [1, 0.5]
    that factor is -1/2, the alternating approach of the printed
    trace. *)
Theorem trivial_error_scaling (floatX : dtype) (st : gmap string (list R))
    (xs : list R) (t : R) :
  length xs = length (st !!! "W" : list R) →
  t - eval y (f floatX st (xs, t)).2 (xs, t)
  = (t - eval y st (xs, t))
    * (1 - 2 * Q2R LEARNING_RATE * vsum (vmap2 mul xs xs))
  ∧ (xs = [1; / 2] →
     t - eval y (f floatX st (xs, t)).2 (xs, t)
     = - / 2 * (t - eval y st (xs, t))).
Proof.
  intros Hl.
  assert (Hstep : t - eval y (f floatX st (xs, t)).2 (xs, t)
    = (t - eval y st (xs, t))
      * (1 - 2 * Q2R LEARNING_RATE * vsum (vmap2 mul xs xs))).
  { rewrite !eval_y, f_store. unfold grad_cost_W.
    rewrite vsum_after_update by done.
    unfold neg. simpl. unfold Q2R. simpl. lra. }
  split; [exact Hstep|].
  intros ->. rewrite Hstep. simpl. unfold Q2R. simpl. lra.
Qed.

(** The witness of X1: the first call of the notebook. *)
Lemma trivial_error_scaling_witness :
  let st : gmap string (list R) := <["W" := [1 / 5; 7 / 10]]> ∅ in
  20 - eval y (f float32 st ([1; / 2], 20)).2 ([1; / 2], 20)
  = - / 2 * (20 - eval y st ([1; / 2], 20)).
Proof.
  intros st.
  exact (proj2 (trivial_error_scaling float32 st [1; / 2] 20 eq_refl) eq_refl).
Defined.

Lemma update_zero_gradient (xs w : list R) (c g : R) :
  g = 0 → length xs = length w →
  vmap2 sub w (map (mul c) (map (λ xi, mul g xi) xs)) = w.
Proof.
  intros ->. revert w. induction xs as [|a xs IH]; intros [|b w] Hl;
    simplify_eq/=; [done|].
  f_equal; [lra|]. by apply IH.
Qed.

(** X2.  When the output already equals the target, a call of [f]
    leaves the weights as they are. *)
Theorem trivial_fixed_point (floatX : dtype) (st : gmap string (list R))
    (xs : list R) (t : R) :
  length xs = length (st !!! "W" : list R) →
  eval y st (xs, t) = t →
  (f floatX st (xs, t)).2 !!! "W" = (st !!! "W" : list R).
Proof.
  intros Hl Hy. rewrite f_store. unfold grad_cost_W. cbv zeta.
  rewrite eval_y in Hy. apply update_zero_gradient; [|done].
  rewrite Hy. unfold neg. simpl. unfold Q2R. simpl. lra.
Qed.

(** The witness of X2: weights [10, 20] give the output 20 on [1, 0.5]. *)
Lemma trivial_fixed_point_witness :
  let st : gmap string (list R) := <["W" := [10; 20]]> ∅ in
  (f float32 st ([1; / 2], 20)).2 !!! "W" = (st !!! "W" : list R).
Proof.
  intros st. apply (trivial_fixed_point float32 st [1; / 2] 20).
  - reflexivity.
  - rewrite eval_y. unfold st. rewrite lookup_total_insert_eq. simpl.
    unfold Q2R. simpl. lra.
Defined.
End trivial_step_facts.

Section trivial_loop_facts.
Context {T : Type} `{Scalar T} (floatX : dtype).
Import Trivial.

Lemma loop_S (n : nat) :
  loop floatX (S n) = loop_body floatX (loop floatX n) (n + 1).
Proof.
  unfold loop. replace (S n + 1)%nat with (S (n + 1)) by lia.
  by rewrite seq_S, foldl_app.
Qed.

(** X3.  [f] returns its outputs as they are before its update: the
    weights printed at the end of a run of [n + 1] updates are the
    weights stored after [n] of them, and the last output printed is
    computed from those; after the first call they are the initial
    weights. *)
Theorem trivial_outputs_before_update (n : nat) :
  last_w (loop floatX 0) = Some (initial_store !!! "W")
  ∧ last_w (loop floatX (S n)) = Some (store (loop floatX n) !!! "W")
  ∧ last (printed (loop floatX (S n)))
    = Some ((n + 2)%nat,
            eval y (store (loop floatX n)) ([of_Q 1; of_Q 0.5], of_Q 20)).
Proof.
  split; [done|]. rewrite loop_S. unfold loop_body, f, call, f_outputs.
  cbn [last_w printed]. split; [done|].
  rewrite last_snoc. by replace (n + 1 + 1)%nat with (n + 2)%nat by lia.
Qed.
End trivial_loop_facts.

(** ** Notebook 04: the data server *)

Section data_server_facts.
Context {T : Type} `{Scalar T}.
Import Genre.DataServer.

Lemma halves_blocks (m : nat) :
  map (halves_label (T:=T) m) (seq 0 m)
  = replicate (m / 2) (of_Q 0) ++ replicate (m - m / 2) (of_Q 1).
Proof.
  assert (Hh : (m / 2 ≤ m)%nat) by (apply Nat.Div0.div_le_upper_bound; lia).
  set (h := (m / 2)%nat) in *. unfold halves_label. fold h.
  replace m with (h + (m - h))%nat at 1 by lia.
  rewrite seq_app, map_app. f_equal.
  - apply list_eq. intros i. rewrite list_lookup_fmap.
    destruct (decide (i < h)%nat).
    + rewrite lookup_seq_lt, lookup_replicate_2 by lia. simpl.
      by rewrite bool_decide_eq_true_2 by lia.
    + rewrite lookup_seq_ge by lia. symmetry. apply lookup_replicate_None. lia.
  - apply list_eq. intros i. rewrite list_lookup_fmap.
    destruct (decide (i < m - h)%nat).
    + rewrite lookup_seq_lt, lookup_replicate_2 by lia. simpl.
      by rewrite bool_decide_eq_false_2 by lia.
    + rewrite lookup_seq_ge by lia. symmetry. apply lookup_replicate_None. lia.
Qed.

(** X4.  On a training array of at least one row
    [DataServer.__init__] fails, on its [assert], exactly when the rows
    are not [SAMPLE_WIDTH] wide.  When it succeeds both collections keep
    their rows, as float32, and the held-out labels are a block of
    [m / 2] zeros followed by a block of [m - m / 2] ones: the two
    classes have the same size exactly when [m] is even. *)
Theorem data_server_init (data_train data_test : ndarray (list (list T)))
    (row : list T) (rows : list (list T)) :
  let m := length (nd_data data_test) in
  nd_data data_train = row :: rows →
  (init data_train data_test = None ↔ length row ≠ Genre.SAMPLE_WIDTH)
  ∧ (∀ self, init data_train data_test = Some self →
       train self = Ndarray float32 (nd_data data_train)
       ∧ test self = Ndarray float32 (nd_data data_test)
       ∧ test_targets self
         = Ndarray float32
             (replicate (m / 2) (of_Q 0) ++ replicate (m - m / 2) (of_Q 1))
       ∧ ((m / 2 = m - m / 2)%nat ↔ Nat.even m = true)).
Proof.
  intros m Hrows. unfold init. cbn [astype nd_data]. split.
  - rewrite Hrows. unfold np.shape1. cbn [hd].
    case_bool_decide; split; done.
  - intros self Hinit. case_bool_decide; [|done]. injection Hinit as <-.
    cbn [train test test_targets]. split; [done|]. split; [done|]. split.
    + rewrite <- halves_blocks. subst m. simpl. f_equal.
      rewrite length_replicate. apply assign_from_halves.
    + rewrite Nat.even_spec. split.
      * intros Hm. exists (m / 2)%nat.
        pose proof (Nat.div_mod_eq m 2).
        assert (m `mod` 2 < 2)%nat by (apply Nat.mod_upper_bound; lia). lia.
      * intros [h ->]. replace (2 * h)%nat with (h * 2)%nat by lia.
        rewrite Nat.div_mul by lia. lia.
Qed.

(** X5.  A batch of [get_train_sample] never shows the uninitialised
    memory of [numpy.empty]: every outcome is the same whatever that
    memory held.  Each outcome is a pair of float32 arrays with
    [batch_size] rows and [batch_size] labels, every row a row of the
    training collection and every label 0.0 or 1.0. *)
Theorem train_sample_shape (junk junk' : T) (self : t T) (batch_size : nat) :
  get_train_sample junk self batch_size
  = get_train_sample junk' self batch_size
  ∧ Forall (λ bp : (ndarray (list (list T)) * ndarray (list T)) * Qc,
       nd_dtype bp.1.1 = float32 ∧ nd_dtype bp.1.2 = float32
       ∧ length (nd_data bp.1.1) = batch_size
       ∧ length (nd_data bp.1.2) = batch_size
       ∧ Forall (λ row, row ∈ nd_data (train self)) (nd_data bp.1.1)
       ∧ Forall (λ l, l = of_Q 0 ∨ l = of_Q 1) (nd_data bp.1.2))
     (get_train_sample junk self batch_size).
Proof.
  rewrite !get_train_sample_draws. split; [done|].
  unfold dmap, independent_uniform. rewrite map_map.
  apply Forall_fmap, Forall_forall. intros idxs Hin.
  apply elem_of_sequences in Hin as [Hl Hf]. cbn.
  rewrite !length_map. split; [done|]. split; [done|]. split; [done|].
  split; [done|]. split.
  - apply Forall_fmap. eapply Forall_impl; [exact Hf|]. intros i Hi. cbn.
    apply list_elem_of_lookup_total_2. done.
  - apply Forall_fmap, Forall_forall. intros i _. cbn. unfold halves_label.
    case_bool_decide; auto.
Qed.

(** X6.  The edges of [get_train_sample]: from an empty training
    collection a batch of at least one example has no outcome
    ([random.randrange(0)] raises ValueError); a batch of size 0 is the
    pair of empty arrays, with certainty; from a collection that is not
    empty the probabilities of the outcomes add up to 1. *)
Theorem train_sample_edges (junk : T) (self : t T) (batch_size : nat) :
  (length (nd_data (train self)) = 0%nat → (0 < batch_size)%nat →
   get_train_sample junk self batch_size = [])
  ∧ get_train_sample junk self 0 = dret (Ndarray float32 [], Ndarray float32 [])
  ∧ ((0 < length (nd_data (train self)))%nat →
     pr (get_train_sample junk self batch_size) (λ _, true) = 1%Qc).
Proof.
  rewrite !get_train_sample_draws. split; [|split].
  - intros -> Hb. destruct batch_size; [lia|]. done.
  - done.
  - intros Hn. rewrite pr_dmap_total. by apply pr_independent_uniform_total.
Qed.
End data_server_facts.

(** The witness of X4: the file of two training and three held-out
    examples. *)
Lemma data_server_init_witness :
  Genre.DataServer.test_targets Examples.loaded_server
  = Ndarray float32 (replicate 1 (of_Q 0) ++ replicate 2 (of_Q 1)).
Proof.
  exact (proj1 (proj2 (proj2 (proj2 (data_server_init (T:=Q)
           Examples.file_train Examples.file_test
           Examples.silence [Examples.silence] eq_refl)
           Examples.loaded_server eq_refl)))).
Defined.

(** The witness of X6: a data server without training examples. *)
Lemma train_sample_edges_witness :
  Genre.DataServer.get_train_sample 0%Q
    (Genre.DataServer.Build (Ndarray float32 []) (Ndarray float32 [])
                            (Ndarray float32 [])) 3 = []
  ∧ pr (Genre.DataServer.get_train_sample 0%Q Examples.small_server_Q 3)
       (λ _, true) = 1%Qc.
Proof.
  split.
  - apply (train_sample_edges (T:=Q) 0%Q
             (Genre.DataServer.Build (Ndarray float32 []) (Ndarray float32 [])
                                     (Ndarray float32 [])) 3);
      [reflexivity | lia].
  - apply (train_sample_edges (T:=Q) 0%Q Examples.small_server_Q 3).
    simpl. lia.
Defined.

(** *** The class of a drawn example *)

Lemma pr_dmap {A B} (d : dist A) (h : A → B) (event : B → bool) :
  pr (dmap h d) event = pr d (λ a, event (h a)).
Proof. induction d as [|[a p] d IH]; [done|]. simpl. by rewrite IH. Qed.

Lemma pr_ext {A} (d : dist A) (event event' : A → bool) :
  (∀ a, event a = event' a) → pr d event = pr d event'.
Proof.
  intros He. induction d as [|[a p] d IH]; [done|]. simpl.
  by rewrite IH, He.
Qed.

Lemma pr_never {A} (d : dist A) : pr d (λ _, false) = 0%Qc.
Proof. induction d as [|[a p] d IH]; [done|]. done. Qed.

(** An event decided by the first draw alone. *)
Lemma pr_dbind_first {A B} (d : dist A) (f : A → dist B)
    (event : B → bool) (P : A → bool) :
  (∀ a, pr (f a) event = if P a then 1%Qc else 0%Qc) →
  pr (dbind d f) event = pr d P.
Proof.
  intros Hf. induction d as [|[a p] d IH]; [done|].
  rewrite dbind_cons, pr_app, pr_scale, IH, Hf. simpl.
  destruct (P a); ring.
Qed.

(** An event whose probability does not depend on the first draw. *)
Lemma pr_dbind_rest {A B} (d : dist A) (f : A → dist B)
    (event : B → bool) (c : Qc) :
  (∀ a, pr (f a) event = c) →
  pr (dbind d f) event = (pr d (λ _, true) * c)%Qc.
Proof.
  intros Hf. induction d as [|[a p] d IH]; [simpl; ring|].
  rewrite dbind_cons, pr_app, pr_scale, IH, Hf. simpl. ring.
Qed.

(** The draw at one position of the batch is a uniform draw. *)
Lemma pr_marginal (n : nat) (P : nat → bool) (batch_size k : nat) :
  (0 < n)%nat → (k < batch_size)%nat →
  pr (independent_uniform n batch_size)
     (λ idxs, from_option P false (idxs !! k))
  = pr (randrange n) P.
Proof.
  intros Hn. revert k. induction batch_size as [|b IH]; intros k Hk; [lia|].
  rewrite independent_uniform_S. destruct k as [|k].
  - apply pr_dbind_first. intros i. rewrite pr_dmap. cbn.
    destruct (P i); [by apply pr_independent_uniform_total|apply pr_never].
  - rewrite (pr_dbind_rest _ _ _ (pr (randrange n) P)).
    + rewrite pr_randrange_total by done. ring.
    + intros i. rewrite pr_dmap. cbn. apply IH. lia.
Qed.

Lemma Qc_of_nat_add (a b : nat) :
  Qc_of_nat (a + b) = (Qc_of_nat a + Qc_of_nat b)%Qc.
Proof.
  induction a as [|a IH].
  - change (Qc_of_nat b = 0 + Qc_of_nat b)%Qc. ring.
  - cbn [Nat.add]. rewrite !Qc_of_nat_S, IH. ring.
Qed.

Lemma pr_uniform_all (l : list nat) (q : Qc) (P : nat → bool) :
  Forall (λ i, P i = true) l →
  pr (map (λ i, (i, q)) l) P = (Qc_of_nat (length l) * q)%Qc.
Proof.
  induction 1 as [|i l Hi Hl IH].
  - change (0 = 0 * q)%Qc. ring.
  - cbn [map pr foldr length]. fold (pr (map (λ i, (i, q)) l) P).
    cbn [fst snd]. rewrite Hi, IH, Qc_of_nat_S. ring.
Qed.

Lemma pr_uniform_none (l : list nat) (q : Qc) (P : nat → bool) :
  Forall (λ i, P i = false) l → pr (map (λ i, (i, q)) l) P = 0%Qc.
Proof.
  induction 1 as [|i l Hi Hl IH]; [done|].
  cbn [map pr foldr]. fold (pr (map (λ i, (i, q)) l) P).
  cbn [fst]. by rewrite Hi.
Qed.

(** A uniform draw below [n] is at least [h] with probability
    [(n - h) / n]. *)
Lemma pr_randrange_ge (n h : nat) :
  (h ≤ n)%nat →
  pr (randrange n) (λ i, bool_decide (h ≤ i)%nat)
  = (Qc_of_nat (n - h) * (1 / Qc_of_nat n))%Qc.
Proof.
  intros Hh. unfold randrange.
  assert (Hseq : seq 0 n = seq 0 h ++ seq h (n - h)).
  { change (seq h (n - h)) with (seq (0 + h) (n - h)).
    rewrite <- seq_app. f_equal. lia. }
  rewrite Hseq, map_app, pr_app, pr_uniform_none, pr_uniform_all.
  - rewrite length_seq. ring.
  - apply Forall_forall. intros i Hi%elem_of_seq.
    apply bool_decide_eq_true_2. lia.
  - apply Forall_forall. intros i Hi%elem_of_seq.
    apply bool_decide_eq_false_2. lia.
Qed.

(** X7.  At every position of a batch the label is 1.0 with probability
    [(n - n / 2) / n], for [n] training examples: the two genres are
    drawn with the same probability 1/2 exactly as balanced as the
    halves of the collection are, that is when [n] is even. *)
Theorem train_sample_label_probability (junk : Q)
    (self : Genre.DataServer.t Q) (batch_size k : nat) :
  let n := length (nd_data (Genre.DataServer.train self)) in
  let is_one (batch : ndarray (list (list Q)) * ndarray (list Q)) :=
    from_option (λ l, Qeq_bool l 1) false (nd_data batch.2 !! k) in
  (0 < n)%nat → (k < batch_size)%nat →
  pr (Genre.DataServer.get_train_sample junk self batch_size) is_one
  = (Qc_of_nat (n - n / 2) * (1 / Qc_of_nat n))%Qc
  ∧ (Nat.even n = true →
     pr (Genre.DataServer.get_train_sample junk self batch_size) is_one
     = (1 / Qc_of_nat 2)%Qc).
Proof.
  intros n is_one Hn Hk.
  assert (Hh : (n / 2 ≤ n)%nat) by (apply Nat.Div0.div_le_upper_bound; lia).
  assert (Hpr : pr (Genre.DataServer.get_train_sample junk self batch_size)
                   is_one
                = (Qc_of_nat (n - n / 2) * (1 / Qc_of_nat n))%Qc).
  { rewrite get_train_sample_draws, pr_dmap. fold n.
    rewrite <- (pr_randrange_ge n (n / 2)) by done.
    rewrite <- (pr_marginal n _ batch_size k) by done.
    apply pr_ext. intros idxs. unfold is_one. cbn [snd nd_data].
    rewrite list_lookup_fmap. destruct (idxs !! k) as [i|]; [|done].
    cbn [from_option fmap option_fmap option_map]. unfold halves_label.
    fold n. do 2 case_bool_decide; try lia; reflexivity. }
  split; [exact Hpr|].
  intros [h Hev]%Nat.even_spec. rewrite Hpr.
  assert (Hdiv : (n / 2 = h)%nat).
  { rewrite Hev. replace (2 * h)%nat with (h * 2)%nat by lia.
    apply Nat.div_mul. lia. }
  rewrite Hdiv. replace (n - h)%nat with h by lia.
  assert (Hnn : Qc_of_nat n = (Qc_of_nat h + Qc_of_nat h)%Qc).
  { rewrite <- Qc_of_nat_add. f_equal. lia. }
  assert (H2 : Qc_of_nat 2 = (1 + 1)%Qc) by (by apply Qc_is_canon).
  assert (Hh0 : Qc_of_nat h ≠ 0%Qc) by (apply Qc_of_nat_pos; lia).
  rewrite Hnn, H2. field. split.
  - intros H3. apply (f_equal this) in H3. discriminate.
  - rewrite <- Qc_of_nat_add. apply Qc_of_nat_pos. lia.
Qed.

(** The witness of X7: the second of three draws from two training
    examples. *)
Lemma train_sample_label_probability_witness :
  pr (Genre.DataServer.get_train_sample 0%Q Examples.small_server_Q 3)
     (λ batch, from_option (λ l, Qeq_bool l 1) false (nd_data batch.2 !! 1%nat))
  = (1 / Qc_of_nat 2)%Qc.
Proof.
  apply (train_sample_label_probability 0%Q Examples.small_server_Q 3 1);
    [simpl; lia | lia | reflexivity].
Defined.

(** ** Compiled functions *)

Section call_facts.
Context {D I : Type} `{Inhabited D}.
Implicit Types (st : gmap string D) (updates : updates_list D I).

(** X8.  A call of a compiled function writes its updates all at once:
    every updated variable gets its expression as evaluated in the store
    of before the call, so the order in which the notebook's loop
    appended the updates is of no consequence, and a variable that is
    not updated is not touched. *)
Theorem updates_order_irrelevant {O} (outputs : gmap string D → I → O)
    st i updates updates' :
  NoDup (map (λ u, sv_name u.1) updates) → updates ≡ₚ updates' →
  call outputs updates st i = call outputs updates' st i
  ∧ (∀ name, name ∉ map (λ u, sv_name u.1) updates →
       (call outputs updates st i).2 !! name = st !! name).
Proof.
  intros Hnd Hperm. split; [|intros name; apply write_updates_other].
  unfold call. f_equal. apply map_eq. intros name.
  assert (Hnames : map (λ u, sv_name u.1) updates
                   ≡ₚ map (λ u, sv_name u.1) updates')
    by (by apply fmap_Permutation).
  assert (Hnd' : NoDup (map (λ u, sv_name u.1) updates'))
    by (by rewrite <- Hnames).
  destruct (decide (name ∈ map (λ u, sv_name u.1) updates)) as [Hin|Hout].
  - apply list_elem_of_fmap in Hin as ([s e] & -> & Hin). cbn [fst].
    rewrite (write_updates_lookup st i updates s e) by done.
    rewrite (write_updates_lookup st i updates' s e); [done..|].
    by rewrite <- Hperm.
  - rewrite !write_updates_other; [done| |done].
    by rewrite <- Hnames.
Qed.
End call_facts.

(** The witness of X8: the two updates of two variables, swapped. *)
Lemma updates_order_irrelevant_witness :
  let a := Shared "a" float32 in
  let b := Shared "b" float32 in
  let st : gmap string nat := <["a" := 1%nat]> (<["b" := 2%nat]> ∅) in
  call (I:=unit) (λ _ _, ()) [(a, read b); (b, read a)] st ()
  = call (I:=unit) (λ _ _, ()) [(b, read a); (a, read b)] st ().
Proof.
  intros a b st.
  apply (updates_order_irrelevant (I:=unit) (λ _ _, ()) st ()
           [(a, read b); (b, read a)] [(b, read a); (a, read b)]).
  - by apply (bool_decide_unpack _).
  - apply perm_swap.
Defined.

(** ** Notebook 04: the network on a batch *)

Section network_facts.
Context {T : Type} `{Scalar T} `{Exponential T}.
Context (floatX : dtype) (z : string → nat → nat → T).
Import Genre.

Lemma switch_rows (m : list (list T)) (c : T) :
  tensor.switch (tensor.gt m c) m c = map (rectifier_row c) m.
Proof.
  unfold tensor.switch, tensor.gt.
  induction m as [|row m IH]; [done|]. cbn [map zip_with]. by rewrite IH.
Qed.

Lemma layer_rows (a W B : list (list T)) :
  tensor.add_broadcast (tensor.dot a W) B = map (linear_row W B) a.
Proof. unfold tensor.add_broadcast, tensor.dot. by rewrite map_map. Qed.

(** The layers before the sigmoid work on every example by itself. *)
Lemma eval_y3_rows (st : gmap string (list (list T))) xs t :
  eval (y3_linear floatX z) st (xs, t) = map (forward_row st) xs.
Proof.
  change (eval (y3_linear floatX z) st (xs, t))
    with (tensor.add_broadcast
            (tensor.dot
               (tensor.switch
                  (tensor.gt
                     (tensor.add_broadcast
                        (tensor.dot
                           (tensor.switch
                              (tensor.gt
                                 (tensor.add_broadcast
                                    (tensor.dot xs (st !!! "W1"))
                                    (st !!! "B1")) (of_Q 0.0))
                              (tensor.add_broadcast
                                 (tensor.dot xs (st !!! "W1"))
                                 (st !!! "B1")) (of_Q 0.0))
                           (st !!! "W2")) (st !!! "B2")) (of_Q 0.0))
                  (tensor.add_broadcast
                     (tensor.dot
                        (tensor.switch
                           (tensor.gt
                              (tensor.add_broadcast
                                 (tensor.dot xs (st !!! "W1"))
                                 (st !!! "B1")) (of_Q 0.0))
                           (tensor.add_broadcast
                              (tensor.dot xs (st !!! "W1"))
                              (st !!! "B1")) (of_Q 0.0))
                        (st !!! "W2")) (st !!! "B2")) (of_Q 0.0))
               (st !!! "W3")) (st !!! "B3")).
  rewrite !layer_rows, !switch_rows, !map_map. done.
Qed.

Lemma eval_y_rows (st : gmap string (list (list T))) xs t :
  eval (y floatX z) st (xs, t)
  = map tensor.sigmoid (concat (map (forward_row st) xs)).
Proof.
  change (eval (y floatX z) st (xs, t))
    with (map tensor.sigmoid
            (tensor.flatten (eval (y3_linear floatX z) st (xs, t)))).
  by rewrite eval_y3_rows.
Qed.

(** X9.  The network treats every example of a batch by itself: the
    predictions for a batch are the predictions for its examples, each
    given alone, one after the other, and the targets given with the
    batch have no part in them.  The same holds of the compiled
    [test]. *)
Theorem predictions_example_by_example
    (st : gmap string (list (list T))) (xs : list (list T)) (t t' : list T) :
  eval (y floatX z) st (xs, t)
  = concat (map (λ row, eval (y floatX z) st ([row], t')) xs)
  ∧ (test floatX z st xs).1
    = concat (map (λ row, (test floatX z st [row]).1) xs).
Proof.
  assert (Hy : ∀ t t', eval (y floatX z) st (xs, t)
            = concat (map (λ row, eval (y floatX z) st ([row], t')) xs)).
  { clear t t'. intros t t'. rewrite eval_y_rows.
    induction xs as [|row rows IH]; [done|].
    cbn [map concat]. rewrite map_app, IH, (eval_y_rows st [row]).
    cbn [map concat]. by rewrite app_nil_r. }
  split; [apply Hy|]. unfold test, call. cbn [fst]. apply Hy.
Qed.

Lemma transpose_column (m : list (list T)) :
  m ≠ [] → Forall (λ r, length r = 1%nat) m →
  length (tensor.transpose m) = 1%nat.
Proof.
  intros Hne Hm. induction Hm as [|r m Hr Hm IH]; [done|].
  destruct m as [|r' m].
  - cbn. by rewrite length_map.
  - change (tensor.transpose (r :: r' :: m))
      with (zip_with cons r (tensor.transpose (r' :: m))).
    rewrite length_zip_with, IH by done. lia.
Qed.

(** With a [W3] of one column and a [B3] of one entry the layers before
    the sigmoid give one number for an example. *)
Lemma forward_row_single (st : gmap string (list (list T))) (row : list T) :
  (st !!! "W3" : list (list T)) ≠ [] →
  Forall (λ r, length r = 1%nat) (st !!! "W3" : list (list T)) →
  length (hd [] (st !!! "B3" : list (list T))) = 1%nat →
  ∃ v, forward_row st row = [v].
Proof.
  intros Hne Hw Hb. unfold forward_row, linear_row at 1.
  set (l := vmap2 add _ _).
  assert (Hl : length l = 1%nat).
  { subst l. unfold vmap2.
    rewrite length_zip_with, length_map, transpose_column, Hb by done.
    done. }
  destruct l as [|v [|]]; try done. by exists v.
Qed.

Lemma prediction_rows (st : gmap string (list (list T))) xs t :
  (st !!! "W3" : list (list T)) ≠ [] →
  Forall (λ r, length r = 1%nat) (st !!! "W3" : list (list T)) →
  length (hd [] (st !!! "B3" : list (list T))) = 1%nat →
  eval (y floatX z) st (xs, t)
  = map (λ row, tensor.sigmoid (hd (of_Q 0) (forward_row st row))) xs.
Proof.
  intros Hne Hw Hb. rewrite eval_y_rows.
  induction xs as [|row rows IH]; [done|].
  cbn [map concat]. rewrite map_app, IH.
  destruct (forward_row_single st row Hne Hw Hb) as [v ->]. done.
Qed.

(** X10.  With a last layer of one unit, that is a [W3] of one column
    and a [B3] of one entry, the network answers one prediction per
    example, the [k]-th one for the [k]-th example: [flatten] only
    removes the axis of length one. *)
Theorem one_prediction_per_example
    (st : gmap string (list (list T))) (xs : list (list T)) (t : list T) :
  (st !!! "W3" : list (list T)) ≠ [] →
  Forall (λ r, length r = 1%nat) (st !!! "W3" : list (list T)) →
  length (hd [] (st !!! "B3" : list (list T))) = 1%nat →
  length (eval (y floatX z) st (xs, t)) = length xs
  ∧ length (test floatX z st xs).1 = length xs
  ∧ ∀ k row, xs !! k = Some row →
      ∃ v, forward_row st row = [v]
           ∧ eval (y floatX z) st (xs, t) !! k = Some (tensor.sigmoid v).
Proof.
  intros Hne Hw Hb.
  pose proof (λ t, prediction_rows st xs t Hne Hw Hb) as Hy.
  split; [by rewrite Hy, length_map|].
  split; [unfold test, call; cbn [fst]; by rewrite Hy, length_map|].
  intros k row Hk. destruct (forward_row_single st row Hne Hw Hb) as [v Hv].
  exists v. split; [done|].
  rewrite Hy. change map with (@fmap list _) at 1.
  rewrite list_lookup_fmap, Hk. cbn. by rewrite Hv.
Qed.
End network_facts.

(** The witness of X10: the network of one unit per layer, on two
    examples. *)
Lemma one_prediction_per_example_witness :
  length (eval (Genre.y float32 Examples.no_variates) Examples.tiny_store
               ([[1%R]; [2%R]], [])) = 2%nat.
Proof.
  apply (one_prediction_per_example float32 Examples.no_variates
           Examples.tiny_store [[1%R]; [2%R]] []).
  - discriminate.
  - repeat constructor.
  - reflexivity.
Defined.

(** ** Notebook 04: more on the training loop *)

Lemma dbind_nil {A B} (d : dist A) : dbind d (λ _, [] : dist B) = [].
Proof. induction d as [|ap d IH]; [done|]. by rewrite dbind_cons, IH. Qed.

Lemma Forall_dbind_strong {A B} (P : A → Prop) (Q : B → Prop)
    (d : dist A) (f : A → dist B) :
  Forall (λ ap, P ap.1) d → (∀ a, P a → Forall (λ bq, Q bq.1) (f a)) →
  Forall (λ bq, Q bq.1) (dbind d f).
Proof.
  intros Hd Hf. induction Hd as [|ap d Hap Hd IH]; [constructor|].
  rewrite dbind_cons. apply Forall_app. split; [|done].
  apply Forall_fmap. exact (Hf ap.1 Hap).
Qed.

(** A property every turn keeps holds after the loop. *)
Lemma for_each_invariant {S} (P : S → Prop) (range : list nat)
    (body : S → nat → dist S) :
  (∀ s i, P s → Forall (λ sp, P sp.1) (body s i)) →
  ∀ s, P s → Forall (λ sp, P sp.1) (for_each range body s).
Proof.
  intros Hbody. induction range as [|i range IH]; intros s Hs.
  - by repeat constructor.
  - cbn [for_each]. eapply Forall_dbind_strong; [by apply Hbody|]. apply IH.
Qed.

Section training_facts.
Context {T : Type} `{Scalar T} `{Exponential T}.
Context (floatX : dtype) (z : string → nat → nat → T) (junk : T).
Context (grad : Genre.differentiation T).
Context (ds : Genre.DataServer.t T) (num_updates eval_step batch_size : nat).
Import Genre.

Local Abbreviation body :=
  (loop_body floatX z junk grad ds num_updates eval_step batch_size).

(** The line an evaluation prints at turn [i] with the store [st]. *)
Local Abbreviation line i st :=
  (Report (i + 1) num_updates
     ((λ p, mul p (of_Q 100)) <$>
        performance
          (map (np.clip (of_Q 0) (of_Q 1))
               (map np.round (test floatX z st (nd_data (DataServer.test ds))).1))
          (nd_data (DataServer.test_targets ds)))).

(** X11.  With [EVAL_STEP = 0] a loop of at least one update has no
    outcome: [(i + 1) % 0] raises ZeroDivisionError in the first turn,
    so no line is ever printed.  A loop of no update ends at once with
    the store it was given and nothing printed. *)
Theorem loop_without_interval (st : gmap string (list (list T))) (n : nat) :
  training_loop floatX z junk grad ds (S n) 0 batch_size st = []
  ∧ training_loop floatX z junk grad ds 0 eval_step batch_size st
    = dret (State st []).
Proof.
  split; [|done]. unfold training_loop. cbn [seq for_each].
  assert (Hturn : loop_body floatX z junk grad ds (S n) 0 batch_size
                    (State st []) 0 = []).
  { unfold loop_body.
    rewrite (dbind_ext (DataServer.get_train_sample junk ds batch_size) _
               (λ _, [])).
    - apply dbind_nil.
    - intros batch. by destruct (train _ _ _ _ _) as [[] st']. }
  by rewrite Hturn.
Qed.

(** X12.  One turn of the loop: the store it leaves is the one its call
    of [train] on the drawn batch leaves, and when [i + 1] is a multiple
    of [EVAL_STEP] the line it prints gives the accuracy of the
    parameters of after that call, not of before; otherwise it prints
    nothing. *)
Theorem evaluation_after_update (s : state) (i : nat) :
  (0 < eval_step)%nat →
  Forall (λ sp : state * Qc,
     (∃ batch, batch ∈ (DataServer.get_train_sample junk ds batch_size).*1
        ∧ store sp.1
          = (train floatX z grad (store s)
               (nd_data batch.1, nd_data batch.2)).2)
     ∧ stdout sp.1
       = stdout s ++
         (if bool_decide ((i + 1) `mod` eval_step = 0)%nat
          then [line i (store sp.1)] else []))
    (body s i).
Proof.
  intros Hk. unfold loop_body.
  set (d := DataServer.get_train_sample junk ds batch_size).
  pose (Q := λ s' : state,
     (∃ batch, batch ∈ d.*1
        ∧ store s'
          = (train floatX z grad (store s)
               (nd_data batch.1, nd_data batch.2)).2)
     ∧ stdout s'
       = stdout s ++
         (if bool_decide ((i + 1) `mod` eval_step = 0)%nat
          then [line i (store s')] else [])).
  apply (Forall_dbind_strong (λ batch, batch ∈ d.*1) Q); subst Q.
  - apply Forall_forall. intros ap Hap. apply list_elem_of_fmap. by exists ap.
  - intros batch Hbatch.
    destruct (train floatX z grad (store s) _) as [[] st] eqn:Htrain.
    destruct eval_step as [|k]; [lia|].
    case_bool_decide; (constructor; [|constructor]); cbn [fst].
    + rewrite evaluation_report. cbn [store stdout]. split; [|done].
      exists batch. split; [done|]. by rewrite Htrain.
    + cbn [store stdout]. split; [|by rewrite app_nil_r].
      exists batch. split; [done|]. by rewrite Htrain.
Qed.

(** What the loop keeps: a property of the store that [train] keeps,
    and a property of the printed lines that holds of every line printed
    with such a store. *)
Lemma loop_invariant (Pst : gmap string (list (list T)) → Prop)
    (V : report → Prop) (range : list nat) :
  (∀ st batch, Pst st → Pst (train floatX z grad st batch).2) →
  (∀ st i, Pst st → V (line i st)) →
  ∀ s, Pst (store s) → Forall V (stdout s) →
    Forall (λ sp, Pst (store sp.1) ∧ Forall V (stdout sp.1))
           (for_each range body s).
Proof.
  intros Htrain Hline s Hs Hout.
  apply (for_each_invariant (λ s, Pst (store s) ∧ Forall V (stdout s)));
    [|done].
  clear s Hs Hout. intros s i [Hs Hout]. unfold loop_body.
  apply (Forall_dbind (λ s', Pst (store s') ∧ Forall V (stdout s'))).
  intros batch. pose proof (Htrain (store s) (nd_data batch.1, nd_data batch.2) Hs)
    as Hst.
  destruct (train floatX z grad (store s) _) as [[] st].
  destruct eval_step as [|k]; [constructor|].
  cbn [snd] in Hst.
  case_bool_decide; (constructor; [|constructor]); cbn [fst].
  - rewrite evaluation_report. cbn [store stdout]. split; [done|].
    apply Forall_app. split; [done|].
    constructor; [|constructor]. by apply Hline.
  - done.
Qed.
End training_facts.

(** The witness of X12: the second of four turns, with an evaluation
    every second turn. *)
Lemma evaluation_after_update_witness :
  Forall (λ sp : Genre.state * Qc,
     Genre.stdout sp.1
     = [Genre.Report 2 4
          ((λ p, mul p (of_Q 100)) <$>
             Genre.performance
               (map (np.clip (of_Q 0) (of_Q 1))
                    (map np.round
                       (Genre.test float32 Examples.no_variates
                          (Genre.store sp.1) [[1%R]]).1))
               [1%R])])
    (Genre.loop_body float32 Examples.no_variates 0%R Examples.constant_grad
       Examples.small_server 4 2 1 (Genre.State Examples.tiny_store []) 1).
Proof.
  eapply Forall_impl.
  - apply (evaluation_after_update float32 Examples.no_variates 0%R
             Examples.constant_grad Examples.small_server 4 2 1
             (Genre.State Examples.tiny_store []) 1). lia.
  - intros sp [_ Hout]. exact Hout.
Defined.

(** ** Notebook 04: the shapes of the parameters *)

Section shape_facts.
Context {T : Type} `{Scalar T} `{Exponential T}.
Context (floatX : dtype) (z : string → nat → nat → T) (junk : T).
Context (grad : Genre.differentiation T).
Import Genre.

Lemma mmap2_sub_shape (a g : list (list T)) (f : T → T) :
  map length g = map length a →
  map length (mmap2 sub a (mmap f g)) = map length a.
Proof.
  unfold mmap2, mmap. revert g.
  induction a as [|ra a IH]; intros [|rg g] Hs; simplify_eq/=; [done|].
  f_equal; [|by apply IH].
  rewrite length_zip_with, length_map. lia.
Qed.

(** [train] keeps the shape of a parameter whose gradient has its
    shape. *)
Lemma train_shape (st : gmap string (list (list T))) batch i p :
  params z !! i = Some p →
  map length (eval (gradients floatX z grad !!! i) st batch)
  = map length (st !!! sv_name p : list (list T)) →
  map length ((train floatX z grad st batch).2 !!! sv_name p : list (list T))
  = map length (st !!! sv_name p : list (list T)).
Proof.
  intros Hp Hg.
  rewrite (lookup_total_correct _ _ _ (train_lookup floatX z grad st batch i p Hp)).
  by apply mmap2_sub_shape.
Qed.

Lemma init_values_shape (rows cols : nat) (zs : nat → nat → T) :
  map length (nd_data (init_values (rows, cols) zs)) = replicate rows cols.
Proof.
  destruct (init_values_spec (rows, cols) zs) as [_ ->]. cbn [fst snd].
  rewrite map_map.
  assert (Hrows : ∀ j (l : nat → list T), (∀ r, length (l r) = cols) →
            map (λ r, length (l r)) (seq j rows) = replicate rows cols).
  { intros j l Hl. revert j. induction rows as [|rows IH]; intros j; [done|].
    cbn [seq map replicate]. by rewrite Hl, IH. }
  apply Hrows. intros r. by rewrite length_map, length_seq.
Qed.

(** The shapes [init_values] gives the six parameters. *)
Lemma initial_store_value (name : string) (v : list (list T)) :
  (name, v) ∈
    [("W1", nd_data (init_values (SAMPLE_WIDTH, 256) (z "W1")));
     ("B1", nd_data (init_values (1, 256) (z "B1")));
     ("W2", nd_data (init_values (256, 64) (z "W2")));
     ("B2", nd_data (init_values (1, 64) (z "B2")));
     ("W3", nd_data (init_values (64, 1) (z "W3")));
     ("B3", nd_data (init_values (1, 1) (z "B3")))] →
  initial_store z !!! name = v.
Proof.
  intros Hin. apply lookup_total_correct. rewrite initial_store_lookup.
  apply elem_of_list_to_map_1; [|done]. by apply (bool_decide_unpack _).
Qed.

Lemma initial_shapes :
  let shape name :=
    map length (initial_store z !!! name : list (list T)) in
  shape "W1" = replicate 1200 256 ∧ shape "B1" = replicate 1 256
  ∧ shape "W2" = replicate 256 64 ∧ shape "B2" = replicate 1 64
  ∧ shape "W3" = replicate 64 1 ∧ shape "B3" = replicate 1 1.
Proof.
  intros shape. subst shape. cbv beta.
  rewrite (initial_store_value "W1" _ ltac:(apply list_elem_of_here)).
  rewrite (initial_store_value "B1" _
             ltac:(do 1 apply list_elem_of_further; apply list_elem_of_here)).
  rewrite (initial_store_value "W2" _
             ltac:(do 2 apply list_elem_of_further; apply list_elem_of_here)).
  rewrite (initial_store_value "B2" _
             ltac:(do 3 apply list_elem_of_further; apply list_elem_of_here)).
  rewrite (initial_store_value "W3" _
             ltac:(do 4 apply list_elem_of_further; apply list_elem_of_here)).
  rewrite (initial_store_value "B3" _
             ltac:(do 5 apply list_elem_of_further; apply list_elem_of_here)).
  repeat split; apply init_values_shape.
Qed.

Lemma shape_of_rows (m : list (list T)) (rows cols : nat) :
  map length m = replicate (S rows) cols →
  length m = S rows ∧ np.shape1 m = cols.
Proof.
  intros Hm. split.
  - by rewrite <- (length_map length m), Hm, length_replicate.
  - destruct m as [|r m]; [done|].
    rewrite replicate_S in Hm. cbn [map] in Hm. unfold np.shape1.
    cbn [hd]. congruence.
Qed.

(** The parameters of [st] have the shapes they started with. *)
Local Abbreviation shapes_kept st :=
  (∀ i p, params z !! i = Some p →
     map length (st !!! sv_name p : list (list T))
     = map length (initial_store z !!! sv_name p : list (list T))).

(** What the last cell prints of a store whose parameters have the
    shapes they started with. *)
Lemma print_params_shapes (st : gmap string (list (list T))) :
  shapes_kept st →
  print_params z st
  = [(0, float32, (1200, 256)); (1, float32, (1, 256));
     (2, float32, (256, 64)); (3, float32, (1, 64));
     (4, float32, (64, 1)); (5, float32, (1, 1))]%nat.
Proof.
  intros Hs.
  destruct initial_shapes as (I1 & I2 & I3 & I4 & I5 & I6).
  assert (H1 : map length (st !!! "W1" : list (list T)) = replicate 1200 256)
    by (rewrite <- I1; apply (Hs 0%nat (W1 z)); reflexivity).
  assert (H2 : map length (st !!! "B1" : list (list T)) = replicate 1 256)
    by (rewrite <- I2; apply (Hs 1%nat (B1 z)); reflexivity).
  assert (H3 : map length (st !!! "W2" : list (list T)) = replicate 256 64)
    by (rewrite <- I3; apply (Hs 2%nat (W2 z)); reflexivity).
  assert (H4 : map length (st !!! "B2" : list (list T)) = replicate 1 64)
    by (rewrite <- I4; apply (Hs 3%nat (B2 z)); reflexivity).
  assert (H5 : map length (st !!! "W3" : list (list T)) = replicate 64 1)
    by (rewrite <- I5; apply (Hs 4%nat (W3 z)); reflexivity).
  assert (H6 : map length (st !!! "B3" : list (list T)) = replicate 1 1)
    by (rewrite <- I6; apply (Hs 5%nat (B3 z)); reflexivity).
  clear I1 I2 I3 I4 I5 I6.
  apply shape_of_rows in H1 as [L1 S1], H2 as [L2 S2], H3 as [L3 S3],
    H4 as [L4 S4], H5 as [L5 S5], H6 as [L6 S6].
  change (print_params z st)
    with [(0%nat, float32, (length (st !!! "W1" : list (list T)),
                            np.shape1 (st !!! "W1" : list (list T))));
          (1%nat, float32, (length (st !!! "B1" : list (list T)),
                            np.shape1 (st !!! "B1" : list (list T))));
          (2%nat, float32, (length (st !!! "W2" : list (list T)),
                            np.shape1 (st !!! "W2" : list (list T))));
          (3%nat, float32, (length (st !!! "B2" : list (list T)),
                            np.shape1 (st !!! "B2" : list (list T))));
          (4%nat, float32, (length (st !!! "W3" : list (list T)),
                            np.shape1 (st !!! "W3" : list (list T))));
          (5%nat, float32, (length (st !!! "B3" : list (list T)),
                            np.shape1 (st !!! "B3" : list (list T))))].
  by rewrite L1, S1, L2, S2, L3, S3, L4, S4, L5, S5, L6, S6.
Qed.
(** The contract of [theano.tensor.grad] that the shapes rest on: the
    gradient with respect to a parameter has the shape of the
    parameter. *)
Local Abbreviation gradient_shapes :=
  (∀ (st : gmap string (list (list T))) batch i p,
     params z !! i = Some p →
     map length (eval (gradients floatX z grad !!! i) st batch)
     = map length (st !!! sv_name p : list (list T))).

Lemma train_shapes_kept (st : gmap string (list (list T))) batch :
  gradient_shapes → shapes_kept st →
  shapes_kept (train floatX z grad st batch).2.
Proof.
  intros Hg Hs i p Hp. rewrite <- (Hs i p Hp).
  apply (train_shape st batch i p Hp), Hg, Hp.
Qed.

(** X13.  The shapes of the parameters never change: whatever the
    number of updates, the interval of the evaluations and the batches
    drawn, the last cell prints the shapes [init_values] was asked for,
    (1200, 256), (1, 256), (256, 64), (1, 64), (64, 1) and (1, 1), all
    float32, as long as every gradient has the shape of its parameter.
    [params()] itself, like [test], writes nothing. *)
Theorem parameter_shapes_kept (ds : DataServer.t T)
    (num_updates eval_step batch_size : nat) :
  gradient_shapes →
  Forall (λ sp : state * Qc,
     print_params z (store sp.1)
     = [(0, float32, (1200, 256)); (1, float32, (1, 256));
        (2, float32, (256, 64)); (3, float32, (1, 64));
        (4, float32, (64, 1)); (5, float32, (1, 1))]%nat
     ∧ (params_call z (store sp.1)).2 = store sp.1)
    (training_loop floatX z junk grad ds num_updates eval_step batch_size
                   (initial_store z)).
Proof.
  intros Hg. unfold training_loop.
  eapply Forall_impl.
  - apply (loop_invariant floatX z junk grad ds num_updates eval_step
             batch_size (λ st, shapes_kept st) (λ _, True)).
    + intros st batch Hs. by apply train_shapes_kept.
    + done.
    + done.
    + constructor.
  - intros sp [Hs _]. split; [by apply print_params_shapes|done].
Qed.
End shape_facts.

(** The witness of X13: two updates with a differentiation that answers,
    for every parameter, the parameter itself. *)
Lemma parameter_shapes_kept_witness :
  Forall (λ sp : Genre.state * Qc,
     Genre.print_params Examples.no_variates (Genre.store sp.1)
     = [(0, float32, (1200, 256)); (1, float32, (1, 256));
        (2, float32, (256, 64)); (3, float32, (1, 64));
        (4, float32, (64, 1)); (5, float32, (1, 1))]%nat)
    (Genre.training_loop float32 Examples.no_variates 0%R
       (λ _ ps, map read ps) Examples.small_server 2 1 1
       (Genre.initial_store Examples.no_variates)).
Proof.
  eapply Forall_impl.
  - apply (parameter_shapes_kept float32 Examples.no_variates 0%R
             (λ _ ps, map read ps) Examples.small_server 2 1 1).
    intros st batch i p Hp.
    assert (Hi : (i < 6)%nat) by (by apply lookup_lt_Some in Hp).
    destruct i as [|[|[|[|[|[|]]]]]]; try lia;
      injection Hp as <-; reflexivity.
  - intros sp [Hp _]. exact Hp.
Defined.

(** ** Notebook 04: what the evaluation prints *)

Section evaluation_facts.
Local Open Scope R_scope.

(** The accuracy of any predictions, one per label, is a fraction. *)
Lemma performance_fraction (predictions targets : list R) :
  length predictions = length targets → targets ≠ [] →
  ∃ a, Genre.performance predictions targets = Some a ∧ 0 <= a <= 1.
Proof.
  intros Hlen Hne. unfold Genre.performance.
  set (bs := np.equal predictions targets).
  assert (Hn : (0 < length targets)%nat)
    by (destruct targets; [done|simpl; lia]).
  assert (Hbs : (sum_list_with (λ b : bool, if b then 1 else 0) bs
                 ≤ length targets)%nat).
  { subst bs. unfold np.equal. rewrite bool_decide_eq_true_2 by done.
    etrans; [apply matches_le_length|]. rewrite length_zip_with. lia. }
  rewrite vsum_as_float. unfold float_div. rewrite of_nat_R. simpl eqb.
  rewrite Q2R_0. destruct (Req_dec_T (INR (length targets)) 0) as [Heq|_].
  { apply (INR_eq _ 0) in Heq. lia. }
  eexists. split; [done|].
  apply le_INR in Hbs. apply lt_INR in Hn. simpl INR in Hn.
  set (m := INR (sum_list_with _ bs)) in *.
  assert (0 <= m) by (subst m; apply pos_INR).
  set (N := INR (length targets)) in *. split.
  - apply Rmult_le_pos; [done|]. left. by apply Rinv_0_lt_compat.
  - apply (Rmult_le_reg_r N); [done|].
    change (m / N * N <= 1 * N). unfold Rdiv.
    rewrite Rmult_assoc, Rinv_l; lra.
Qed.

(** The predicted class is the sign of the last linear layer. *)
Lemma sigmoid_half (v : R) :
  (0 < v → / 2 < tensor.sigmoid v) ∧ (v <= 0 → tensor.sigmoid v <= / 2).
Proof.
  unfold tensor.sigmoid, neg, exp_, Exponential_R. simpl.
  rewrite Q2R_1, Q2R_0. pose proof (exp_pos (0 - v)) as He. split; intros Hv.
  - assert (He1 : exp (0 - v) < 1).
    { rewrite <- exp_0. apply exp_increasing. lra. }
    apply (Rmult_lt_reg_r (1 + exp (0 - v))); [lra|].
    unfold Rdiv. rewrite Rmult_assoc, Rinv_l; lra.
  - assert (He1 : 1 <= exp (0 - v)).
    { destruct (Req_dec v 0) as [->|Hne].
      - rewrite Rminus_diag, exp_0. lra.
      - left. rewrite <- exp_0. apply exp_increasing. lra. }
    apply (Rmult_le_reg_r (1 + exp (0 - v))); [lra|].
    unfold Rdiv. rewrite Rmult_assoc, Rinv_l; lra.
Qed.

Lemma round_low (y : R) : 0 <= y <= / 2 → np.round y = 0.
Proof.
  intros Hy. destruct (Req_dec y (/ 2)) as [->|Hne]; [apply round_of_half|].
  assert (Hf : Int_part y = 0%Z) by (symmetry; apply Int_part_spec; lra).
  destruct (round_R y) as [[_ ->]|[[Hr _]|[Hr _]]]; rewrite Hf in *;
    [done|lra|lra].
Qed.

(** X14.  The class the evaluation reads from a prediction, the sigmoid
    rounded and clipped, follows the sign of the last linear layer only
    in part.  An argument that is not positive never gets the class 1,
    in float32 as in exact arithmetic, and the argument 100 gets the
    class 1.  In exact arithmetic every positive argument gets the
    class 1; in float32 the positive argument [2^-27] has the sigmoid
    0.5 exactly, a tie that [round] sends to 0, and gets the class 0. *)
Theorem predicted_class (lo hi : R) :
  lo <= 0 → 1 <= hi →
  (∀ v : R, v <= 0 →
     ∃ y, Float32.sigmoid lo hi v = Some y
          ∧ np.clip (Q2R 0) (Q2R 1) (np.round y) = 0)
  ∧ (Float32.sigmoid lo hi (/ 134217728) = Some (/ 2)
     ∧ np.clip (Q2R 0) (Q2R 1) (np.round (/ 2)) = 0)
  ∧ (Float32.sigmoid lo hi 100 = Some 1
     ∧ np.clip (Q2R 0) (Q2R 1) (np.round 1) = 1)
  ∧ (∀ v : R, np.clip (Q2R 0) (Q2R 1) (np.round (tensor.sigmoid v))
              = if Rlt_dec 0 v then 1 else 0).
Proof.
  intros Hlo Hhi. split; [|split; [|split]].
  - intros v Hv.
    destruct (sigmoid32_nonpositive lo hi Hhi v Hv) as (y & Hy & Hr).
    exists y. split; [done|]. rewrite round_low by done.
    apply clip_below. lra.
  - split; [by apply sigmoid32_tiny|].
    rewrite round_of_half. apply clip_below. lra.
  - split; [by apply sigmoid32_saturated|].
    rewrite (round_of_integer 1). apply clip_above. lra.
  - intros v. pose proof (sigmoid_bounds v) as Hs.
    destruct (sigmoid_half v) as [Hpos Hneg].
    assert (Hf : Int_part (tensor.sigmoid v) = 0%Z)
      by (symmetry; apply Int_part_spec; lra).
    destruct (round_R (tensor.sigmoid v)) as [[Hr ->]|[[Hr ->]|[Hr ->]]];
      rewrite Hf in *; cbn [Z.even Z.add]; rewrite Rminus_0_r in Hr.
    + destruct (Rlt_dec 0 v) as [Hv|Hv]; [specialize (Hpos Hv); lra|].
      apply clip_below. lra.
    + destruct (Rlt_dec 0 v) as [Hv|Hv].
      * apply clip_above. change (0 + 1)%Z with 1%Z. lra.
      * apply Rnot_lt_le in Hv. specialize (Hneg Hv). lra.
    + destruct (Rlt_dec 0 v) as [Hv|Hv]; [specialize (Hpos Hv); lra|].
      apply clip_below. lra.
Qed.

(** The witness of X14: the cut-offs of Theano's C code, at the
    argument -1. *)
Lemma predicted_class_witness :
  ∃ y, Float32.sigmoid (-88) 15 (-1) = Some y
       ∧ np.clip (Q2R 0) (Q2R 1) (np.round y) = 0.
Proof.
  apply (proj1 (predicted_class (-88) 15 ltac:(lra) ltac:(lra))). lra.
Defined.

Lemma all_matches (bs : list bool) :
  sum_list_with (λ b : bool, if b then 1 else 0)%nat bs = length bs
  ↔ Forall (λ b, b = true) bs.
Proof.
  pose proof (matches_le_length) as Hle.
  induction bs as [|b bs IH]; [by split|]. cbn [sum_list_with length].
  specialize (Hle bs). destruct b.
  - rewrite Forall_cons. split.
    + intros Hs. split; [done|]. apply IH. lia.
    + intros [_ Hbs]. apply IH in Hbs. lia.
  - split; [lia|]. by intros [? _]%Forall_cons.
Qed.

(** X15.  The evaluation prints 100 exactly when every held-out example
    is classified as its label says: the accuracy is 1 if and only if
    each prediction, rounded and clipped, equals its target. *)
Theorem full_accuracy (predictions targets : list R) :
  length predictions = length targets → targets ≠ [] →
  Genre.performance
    (map (np.clip (Q2R 0) (Q2R 1)) (map np.round predictions)) targets
  = Some 1
  ↔ Forall2 (λ p t, np.clip (Q2R 0) (Q2R 1) (np.round p) = t)
            predictions targets.
Proof.
  intros Hlen Hne. unfold Genre.performance, np.equal.
  rewrite bool_decide_eq_true_2 by (by rewrite !length_map).
  assert (Hn : (0 < length targets)%nat)
    by (destruct targets; [done|simpl; lia]).
  set (bs := zip_with eqb _ targets).
  assert (Hbl : length bs = length targets).
  { subst bs. rewrite length_zip_with, !length_map. lia. }
  assert (Hall : Forall (λ b, b = true) bs
                 ↔ Forall2 (λ p t, np.clip (Q2R 0) (Q2R 1) (np.round p) = t)
                           predictions targets).
  { subst bs. clear -Hlen. revert targets Hlen.
    induction predictions as [|p ps IH]; intros [|t ts] Hlen;
      cbn [length] in Hlen; simplify_eq; cbn [map zip_with].
    - split; constructor.
    - rewrite Forall_cons, Forall2_cons, (IH ts) by done.
      simpl eqb.
      destruct (Req_dec_T _ t) as [e|n]; split; intros [H1 H2].
      * split; [exact e|exact H2].
      * split; [done|exact H2].
      * discriminate H1.
      * destruct (n H1). }
  rewrite <- Hall, <- all_matches, Hbl.
  rewrite vsum_as_float. unfold float_div. rewrite of_nat_R. simpl eqb.
  rewrite Q2R_0. destruct (Req_dec_T (INR (length targets)) 0) as [Heq|HN].
  { apply (INR_eq _ 0) in Heq. lia. }
  split.
  - intros [= Hdiv]. apply INR_eq.
    apply (Rmult_eq_reg_r (/ INR (length targets)));
      [|by apply Rinv_neq_0_compat].
    rewrite Rinv_r by done. exact Hdiv.
  - intros ->. f_equal. change (INR (length targets) / INR (length targets) = 1).
    by field.
Qed.

(** The witness of X15: two predictions on the right sides of 0.5. *)
Lemma full_accuracy_witness :
  Genre.performance
    (map (np.clip (Q2R 0) (Q2R 1)) (map np.round [9 / 10; 1 / 10])) [1; 0]
  = Some 1
  ↔ Forall2 (λ p t, np.clip (Q2R 0) (Q2R 1) (np.round p) = t)
            [9 / 10; 1 / 10] [1; 0].
Proof. apply full_accuracy; [reflexivity | discriminate]. Defined.
End evaluation_facts.

Section percentage_facts.
Local Open Scope R_scope.
Import Genre.

(** X16.  Every accuracy the training loop prints is a percentage
    between 0 and 100, never "nan": for a data server made by
    [DataServer.__init__] from a file with at least one held-out example
    and gradients of the shapes of their parameters, whatever the number
    of updates, the interval, the batch size and the batches drawn. *)
Theorem printed_percentages floatX (z : string → nat → nat → R) (junk : R)
    (grad : differentiation R)
    (data_train data_test : ndarray (list (list R))) (ds : DataServer.t R)
    (num_updates eval_step batch_size : nat) :
  (∀ (st : gmap string (list (list R))) batch i p,
     params z !! i = Some p →
     map length (eval (gradients floatX z grad !!! i) st batch)
     = map length (st !!! sv_name p : list (list R))) →
  DataServer.init data_train data_test = Some ds →
  nd_data data_test ≠ [] →
  Forall (λ sp : state * Qc,
     Forall (λ r, ∃ a, percent r = Some a ∧ 0 <= a <= 100) (stdout sp.1))
    (training_loop floatX z junk grad ds num_updates eval_step batch_size
                   (initial_store z)).
Proof.
  intros Hg Hinit Hne. unfold training_loop.
  assert (Hds : length (nd_data (DataServer.test ds))
                = length (nd_data (DataServer.test_targets ds))
                ∧ nd_data (DataServer.test_targets ds) ≠ []).
  { unfold DataServer.init in Hinit. case_bool_decide; [|done].
    injection Hinit as <-.
    cbn [DataServer.test DataServer.test_targets nd_data astype np.zeros_of].
    assert (Hl : ∀ k (v : R) a, length (np.assign_from k v a) = length a).
    { intros k v a. unfold np.assign_from.
      rewrite length_app, length_take, length_replicate. lia. }
    split.
    - by rewrite Hl, length_replicate.
    - intros Heq. apply (f_equal length) in Heq.
      rewrite Hl, length_replicate in Heq.
      by destruct (nd_data data_test). }
  destruct Hds as [Hlen Htargets].
  pose (kept := λ st : gmap string (list (list R)),
          ∀ i p, params z !! i = Some p →
            map length (st !!! sv_name p : list (list R))
            = map length (initial_store z !!! sv_name p : list (list R))).
  eapply Forall_impl.
  - apply (loop_invariant floatX z junk grad ds num_updates eval_step
             batch_size kept
             (λ r, ∃ a, percent r = Some a ∧ 0 <= a <= 100)).
    + intros st batch Hs i p Hp.
      by apply (train_shapes_kept floatX z grad st batch Hg Hs i p).
    + intros st i Hs. cbn [percent].
      destruct (initial_shapes z) as (_ & _ & _ & _ & I5 & I6).
      assert (H5 : map length (st !!! "W3" : list (list R))
                   = replicate 64 1%nat)
        by (rewrite <- I5; apply (Hs 4%nat (W3 z)); reflexivity).
      assert (H6 : map length (st !!! "B3" : list (list R))
                   = replicate 1 1%nat)
        by (rewrite <- I6; apply (Hs 5%nat (B3 z)); reflexivity).
      assert (Hw : Forall (λ r : list R, length r = 1%nat) (st !!! "W3")).
      { assert (Hf : Forall (λ n, n = 1%nat)
                       (map length (st !!! "W3" : list (list R))))
          by (rewrite H5; by apply Forall_replicate).
        apply Forall_fmap in Hf. exact Hf. }
      assert (Hw0 : (st !!! "W3" : list (list R)) ≠ []).
      { intros Heq. rewrite Heq in H5. discriminate. }
      assert (Hb : length (hd [] (st !!! "B3" : list (list R))) = 1%nat).
      { apply shape_of_rows in H6 as [_ Hb]. exact Hb. }
      destruct (performance_fraction
                  (map (np.clip (of_Q 0) (of_Q 1))
                     (map np.round
                        (test floatX z st (nd_data (DataServer.test ds))).1))
                  (nd_data (DataServer.test_targets ds))) as (a & -> & Ha).
      * rewrite !length_map, <- Hlen. unfold test, call. cbn [fst].
        by rewrite (prediction_rows floatX z st _ _ Hw0 Hw Hb), length_map.
      * done.
      * exists (a * 100). split.
        -- cbn. f_equal. unfold Q2R. simpl. lra.
        -- lra.
    + done.
    + constructor.
  - intros sp [_ Hout]. exact Hout.
Qed.

(** The witness of X16: the file of silence, two updates with an
    evaluation after each, and a differentiation that answers the
    parameter itself. *)
Lemma printed_percentages_witness :
  Forall (λ sp : state * Qc,
     Forall (λ r, ∃ a, percent r = Some a ∧ 0 <= a <= 100) (stdout sp.1))
    (training_loop float32 Examples.no_variates 0 (λ _ ps, map read ps)
       Examples.silent_server 2 1 1 (initial_store Examples.no_variates)).
Proof.
  apply (printed_percentages float32 Examples.no_variates 0
           (λ _ ps, map read ps) Examples.silent_train Examples.silent_test
           Examples.silent_server 2 1 1).
  - intros st batch i p Hp.
    assert (Hi : (i < 6)%nat) by (by apply lookup_lt_Some in Hp).
    destruct i as [|[|[|[|[|[|]]]]]]; try lia;
      injection Hp as <-; reflexivity.
  - reflexivity.
  - discriminate.
Defined.
End percentage_facts.

(** ** Notebook 04: the loss on labelled batches *)

Section loss_range.
Local Open Scope R_scope.

Lemma vsum_fractions (l : list R) :
  Forall (λ a, 0 < a < 1) l → l ≠ [] → 0 < vsum l < INR (length l).
Proof.
  intros Hl Hne. induction Hl as [|a l Ha Hl IH]; [done|].
  cbn [vsum foldr length]. fold (vsum l). rewrite S_INR. simpl add.
  destruct l as [|b l].
  - cbn [vsum foldr length]. simpl. rewrite Q2R_0. lra.
  - specialize (IH ltac:(done)). lra.
Qed.

Lemma mean_fractions (l : list R) :
  Forall (λ a, 0 < a < 1) l → l ≠ [] →
  ∃ c, tensor.mean l = Some c ∧ 0 < c < 1.
Proof.
  intros Hl Hne. destruct (vsum_fractions l Hl Hne) as [Hlo Hhi].
  assert (Hn : 0 < INR (length l)) by lra.
  unfold tensor.mean, float_div. rewrite of_nat_R. simpl eqb. rewrite Q2R_0.
  destruct (Req_dec_T (INR (length l)) 0) as [Heq|_]; [lra|].
  eexists. split; [done|]. change (0 < vsum l / INR (length l) < 1). split.
  - by apply Rdiv_lt_0_compat.
  - apply (Rmult_lt_reg_r (INR (length l))); [done|]. unfold Rdiv.
    rewrite Rmult_assoc, Rinv_l; lra.
Qed.

Lemma squared_error_fraction (ts ys : list R) :
  Forall (λ t, t = 0 ∨ t = 1) ts → Forall (λ a, 0 < a < 1) ys →
  Forall (λ a, 0 < a < 1) (map sqr (vmap2 sub ts ys)).
Proof.
  intros Ht. revert ys. induction Ht as [|t ts Ht _ IH]; intros ys Hy.
  - constructor.
  - destruct Hy as [|y ys Hy Hys]; [constructor|].
    cbn [vmap2 zip_with map]. constructor; [|by apply IH].
    unfold sqr. simpl. destruct Ht as [-> | ->]; nra.
Qed.

Lemma vsum_unit (l : list R) :
  Forall (λ a, 0 <= a <= 1) l → 0 <= vsum l <= INR (length l).
Proof.
  induction 1 as [|a l Ha Hl IH].
  - cbn [vsum foldr length]. simpl. rewrite Q2R_0. lra.
  - cbn [vsum foldr length]. fold (vsum l). rewrite S_INR. simpl add. lra.
Qed.

Lemma mean_unit (l : list R) :
  Forall (λ a, 0 <= a <= 1) l → l ≠ [] →
  ∃ c, tensor.mean l = Some c ∧ 0 <= c <= 1.
Proof.
  intros Hl Hne. destruct (vsum_unit l Hl) as [Hlo Hhi].
  assert (Hn : 0 < INR (length l)).
  { destruct l; [done|]. apply (lt_INR 0). simpl. lia. }
  unfold tensor.mean, float_div. rewrite of_nat_R. simpl eqb. rewrite Q2R_0.
  destruct (Req_dec_T (INR (length l)) 0) as [Heq|_]; [lra|].
  eexists. split; [done|]. change (0 <= vsum l / INR (length l) <= 1). split.
  - apply Rmult_le_pos; [done|]. left. by apply Rinv_0_lt_compat.
  - apply (Rmult_le_reg_r (INR (length l))); [done|]. unfold Rdiv.
    rewrite Rmult_assoc, Rinv_l; lra.
Qed.

Lemma squared_error_unit (ts ys : list R) :
  Forall (λ t, t = 0 ∨ t = 1) ts → Forall (λ a, 0 <= a <= 1) ys →
  Forall (λ a, 0 <= a <= 1) (map sqr (vmap2 sub ts ys)).
Proof.
  intros Ht. revert ys. induction Ht as [|t ts Ht _ IH]; intros ys Hy.
  - constructor.
  - destruct Hy as [|y ys Hy Hys]; [constructor|].
    cbn [vmap2 zip_with map]. constructor; [|by apply IH].
    unfold sqr. simpl. destruct Ht as [-> | ->]; nra.
Qed.

(** X17.  On a batch of at least one example with labels 0.0 and 1.0
    and one prediction per label, each from 0 to 1 as a sigmoid gives
    them, the training loss is a number from 0 to 1.  In exact
    arithmetic it is strictly between the two, since the exact sigmoid
    never reaches a label; the float32 sigmoid does, 1.0 at the argument
    100, and the loss of that prediction with the label 1.0 is exactly
    0. *)
Theorem loss_in_unit_interval floatX (z : string → nat → nat → R)
    (st : gmap string (list (list R))) (xs : list (list R))
    (t ys : list R) (lo hi : R) :
  lo <= 0 → 1 <= hi →
  Forall (λ l, l = 0 ∨ l = 1) t → t ≠ [] →
  (length ys = length t → Forall (λ y, 0 <= y <= 1) ys →
   ∃ c, tensor.mean (map sqr (vmap2 sub t ys)) = Some c ∧ 0 <= c <= 1)
  ∧ (length (eval (Genre.y floatX z) st (xs, t)) = length t →
     ∃ c, eval (Genre.cost floatX z) st (xs, t) = Some c ∧ 0 < c < 1)
  ∧ (Float32.sigmoid lo hi 100 = Some 1
     ∧ tensor.mean (map sqr (vmap2 sub [1] [1])) = Some 0).
Proof.
  intros Hlo Hhi Ht Hne.
  assert (Hsome : ∀ ys : list R, length ys = length t →
            map sqr (vmap2 sub t ys) ≠ []).
  { intros ys' Hlen Heq. apply (f_equal length) in Heq.
    rewrite length_map in Heq. unfold vmap2 in Heq.
    rewrite length_zip_with, Hlen in Heq.
    destruct t; [done|]. cbn [length] in Heq. lia. }
  split; [|split].
  - intros Hlen Hys. apply mean_unit; [|by apply Hsome].
    by apply squared_error_unit.
  - intros Hlen. rewrite eval_genre_cost. apply mean_fractions;
      [|by apply Hsome].
    apply squared_error_fraction; [done|].
    apply Forall_fmap, Forall_true. intros a. apply sigmoid_bounds.
  - split; [by apply sigmoid32_saturated|].
    rewrite (mean_is_mean_squared_error [1] [1] eq_refl).
    unfold mean_squared_error. cbn [squared_errors length INR]. f_equal. lra.
Qed.

(** The witness of X17: the float32 sigmoid at the arguments 100 and 0,
    with the labels 1.0 and 0.0. *)
Lemma loss_in_unit_interval_witness :
  ∃ c, tensor.mean (map sqr (vmap2 sub [1; 0] [1; / 2])) = Some c
       ∧ 0 <= c <= 1.
Proof.
  apply (proj1 (loss_in_unit_interval float32 Examples.no_variates
                  Examples.tiny_store [] [1; 0] [1; / 2] (-88) 15
                  ltac:(lra) ltac:(lra)
                  ltac:(constructor; [by right|constructor; [by left|constructor]])
                  ltac:(discriminate))).
  - reflexivity.
  - constructor; [lra|constructor; [lra|constructor]].
Defined.
End loss_range.

(** ** NumPy and Theano operations *)

Section operation_facts.
Local Open Scope R_scope.

(** X18.  [round] answers the nearest integer: an integer at a distance
    of at most 1/2 from its argument, and the even one of the two when
    the distance is exactly 1/2.  [clip] with bounds in order answers a
    value between the bounds and leaves a value between them as it is,
    so clipping twice is clipping once. *)
Theorem round_nearest (v lo hi : R) :
  (∃ k : Z, np.round v = IZR k ∧ Rabs (np.round v - v) <= / 2
            ∧ (Rabs (np.round v - v) = / 2 → Z.even k = true))
  ∧ (lo <= hi →
     lo <= np.clip lo hi v <= hi
     ∧ (lo <= v <= hi → np.clip lo hi v = v)
     ∧ np.clip lo hi (np.clip lo hi v) = np.clip lo hi v).
Proof.
  split.
  - pose proof (Int_part_bounds v) as Hf.
    destruct (round_R v) as [[Hr ->]|[[Hr ->]|[Hr ->]]].
    + eexists. split; [done|]. split.
      * rewrite Rabs_left1; lra.
      * rewrite Rabs_left1; lra.
    + eexists. split; [done|]. rewrite plus_IZR. split.
      * rewrite Rabs_right; lra.
      * rewrite Rabs_right; lra.
    + destruct (Z.even (Int_part v)) eqn:Hev.
      * eexists. split; [done|]. split; [rewrite Rabs_left1; lra|done].
      * eexists. split; [done|]. rewrite plus_IZR. split.
        -- rewrite Rabs_right; lra.
        -- intros _. rewrite Z.add_1_r, Z.even_succ, <- Z.negb_even, Hev.
           done.
  - intros Hb.
    assert (Hclip : ∀ w, np.clip lo hi w
              = if Rlt_dec w lo then lo else if Rlt_dec hi w then hi else w).
    { intros w. unfold np.clip. simpl.
      destruct (Rlt_dec w lo); [done|]. by destruct (Rlt_dec hi w). }
    rewrite !Hclip. split; [|split].
    + destruct (Rlt_dec v lo); [lra|]. destruct (Rlt_dec hi v); lra.
    + intros Hv. destruct (Rlt_dec v lo); [lra|].
      destruct (Rlt_dec hi v); lra.
    + destruct (Rlt_dec v lo) as [Hv|Hv].
      * destruct (Rlt_dec lo lo); [lra|]. destruct (Rlt_dec hi lo); lra.
      * destruct (Rlt_dec hi v) as [Hv'|Hv'].
        -- destruct (Rlt_dec hi lo); [lra|]. destruct (Rlt_dec hi hi); lra.
        -- destruct (Rlt_dec v lo); [lra|]. destruct (Rlt_dec hi v); lra.
Qed.

(** The witness of X18: 2.5 between the bounds 0 and 1. *)
Lemma round_nearest_witness :
  0 <= np.clip 0 1 (5 / 2) <= 1.
Proof. apply (round_nearest (5 / 2) 0 1). lra. Defined.
End operation_facts.

Section dot_facts.
Context {T : Type} `{Scalar T}.

Lemma transpose_lookup (b : list (list T)) (m c : nat) :
  b ≠ [] → Forall (λ r, length r = m) b → (c < m)%nat →
  tensor.transpose b !! c = Some (map (λ r, default (of_Q 0) (r !! c)) b).
Proof.
  intros Hne Hb Hc. induction Hb as [|r b Hr Hb IH]; [done|].
  assert (Hrc : ∃ a, r !! c = Some a)
    by (apply lookup_lt_is_Some; rewrite Hr; exact Hc).
  destruct Hrc as [a Ha]. destruct b as [|r' b].
  - cbn [tensor.transpose map]. change map with (@fmap list _).
    by rewrite list_lookup_fmap, Ha.
  - change (tensor.transpose (r :: r' :: b))
      with (zip_with cons r (tensor.transpose (r' :: b))).
    rewrite lookup_zip_with, Ha, IH by done. cbn. by rewrite Ha.
Qed.

(** X19.  [dot] is the matrix product: for a second matrix of [m]
    columns, the entry of the result in row [r] and column [c] is the
    sum over [k] of [a[r][k] * b[k][c]]. *)
Theorem dot_entry (a b : list (list T)) (m r c : nat) (row : list T) :
  b ≠ [] → Forall (λ br, length br = m) b → (c < m)%nat →
  a !! r = Some row →
  tensor.dot a b !! r ≫= (.!! c)
  = Some (vsum (vmap2 mul row (map (λ br, default (of_Q 0) (br !! c)) b)))
  ∧ length (tensor.dot a b) = length a
  ∧ Forall (λ out, length out = m) (tensor.dot a b).
Proof.
  intros Hne Hb Hc Hr. unfold tensor.dot.
  assert (Hcols : length (tensor.transpose b) = m).
  { clear -Hne Hb. induction Hb as [|br b Hbr Hb IH]; [done|].
    destruct b as [|br' b].
    - cbn. by rewrite length_map.
    - change (tensor.transpose (br :: br' :: b))
        with (zip_with cons br (tensor.transpose (br' :: b))).
      rewrite length_zip_with, IH by done. lia. }
  split; [|split].
  - change map with (@fmap list _) at 1. rewrite list_lookup_fmap, Hr. cbn.
    change map with (@fmap list _) at 1.
    by rewrite list_lookup_fmap, (transpose_lookup b m c).
  - by rewrite length_map.
  - apply Forall_fmap, Forall_true. intros row'. cbn.
    by rewrite length_map.
Qed.
End dot_facts.

(** The witness of X19: a row by a 2 x 2 matrix, second column. *)
Lemma dot_entry_witness :
  tensor.dot [[1%Q; 2%Q]] [[3%Q; 4%Q]; [5%Q; 6%Q]] !! 0%nat ≫= (.!! 1%nat)
  = Some (vsum (vmap2 mul [1%Q; 2%Q]
                  (map (λ br, default (of_Q 0) (br !! 1%nat))
                       [[3%Q; 4%Q]; [5%Q; 6%Q]]))).
Proof.
  apply (dot_entry [[1%Q; 2%Q]] [[3%Q; 4%Q]; [5%Q; 6%Q]] 2 0 1 [1%Q; 2%Q]).
  - discriminate.
  - repeat constructor.
  - lia.
  - reflexivity.
Defined.
